(** * go-terminal-streamer: the output buffer, its fan-out and its line framer

    A shallow embedding of [main.go]: the [OutputBuffer] with its bounded
    window of recent lines and its client registry, the WebSocket fan-out,
    the scanner-driven line framer [ProcessStream], the connection handler
    [WSHandler] and the command launcher [ExecuteCommand].

    Go values are modelled as follows.
    - A Go [string] is a sequence of bytes: Rocq's [string].
    - A Go [int] is a [Z]; [len] of a slice is [Z.of_nat (length _)].
    - A [*websocket.Conn] is a pointer and is compared by identity: a
      [positive].
    - [map[*websocket.Conn]bool] and [map[string]string] are [gmap]s.
    - A runtime panic is the [Panic] case of [result]. *)

From Stdlib Require Import ZArith Ascii String.
From stdpp Require Import gmap strings list fin_maps.

Local Open Scope string_scope.
Local Open Scope Z_scope.
Local Open Scope list_scope.
Local Open Scope stdpp_scope.

(** ** Results of code that may panic *)

Inductive result (A : Type) : Type :=
  | Ok (a : A)
  | Panic (msg : string).
Arguments Ok {A} a.
Arguments Panic {A} msg.

#[export] Instance result_ret : MRet result := λ A a, Ok a.
#[export] Instance result_bind : MBind result := λ A B f r,
  match r with
  | Ok a => f a
  | Panic msg => Panic msg
  end.

Definition is_Ok {A} (r : result A) : Prop := ∃ a, r = Ok a.

(** ** The transport: golang.org/x/net/websocket seen from main.go *)

Abbreviation conn := positive.

(** The JSON object handed to [websocket.JSON.Send]: a [map[string]string]. *)
Abbreviation message := (gmap string string).

(** What lies outside the buffer: what each viewer has received so far,
    which transports have failed, what [log.Printf] has printed, and which
    commands have been started. *)
Record sys := mkSys {
  inbox : gmap conn (list message);
  broken : gset conn;
  errlog : list string;
  spawned : list (list string) }.

Definition inbox_of (n : sys) (c : conn) : list message :=
  default [] (inbox n !! c).

Definition deliver (c : conn) (m : message) (n : sys) : sys :=
  mkSys (<[c := inbox_of n c ++ [m]]> (inbox n)) (broken n) (errlog n) (spawned n).

Definition log_Printf (s : string) (n : sys) : sys :=
  mkSys (inbox n) (broken n) (errlog n ++ [s]) (spawned n).

Definition send_failure : string := "write: broken pipe".

(** [websocket.JSON.Send]: the message reaches the viewer, or an error comes
    back when the transport has failed. *)
Definition Send (c : conn) (m : message) (n : sys) : sys * option string :=
  if decide (c ∈ broken n) then (n, Some send_failure)
  else (deliver c m n, None).

(** ** OutputBuffer (main.go, lines 19-35) *)

Record OutputBuffer := mkOutputBuffer {
  recentLines : list string;
  maxBufferSize : Z;
  clients : gmap conn bool }.

Definition with_recentLines (b : OutputBuffer) (l : list string) : OutputBuffer :=
  mkOutputBuffer l (maxBufferSize b) (clients b).

Definition with_clients (b : OutputBuffer) (m : gmap conn bool) : OutputBuffer :=
  mkOutputBuffer (recentLines b) (maxBufferSize b) m.

(** The largest capacity [make([]string, 0, capacity)] accepts: the
    runtime refuses a slice of more than [maxAlloc] bytes, 2^48 on the
    64-bit platforms, and a string header takes 16 bytes. *)
Definition maxSliceCap : Z := 2 ^ 44.

(** [make([]string, 0, capacity)] panics on a negative capacity and on one
    beyond the allocator's limit. (Below the limit the allocation is taken
    to succeed: a machine that runs out of memory ends the program with a
    fatal error of the runtime, which no statement here covers.) *)
Definition NewOutputBuffer (capacity : Z) : result OutputBuffer :=
  if decide (capacity < 0) then Panic "makeslice: cap out of range"
  else if decide (maxSliceCap < capacity) then Panic "makeslice: cap out of range"
  else Ok (mkOutputBuffer [] capacity ∅).

(** The slice expression [s[1:]]: its upper bound defaults to [len(s)], so
    on an empty slice the bounds are [1:0] and the runtime panics. *)
Definition slice_from_1 (s : list string) : result (list string) :=
  match s with
  | [] => Panic "slice bounds out of range [1:0]"
  | _ :: t => Ok t
  end.

(** [AddLine], the section under [b.mu] (lines 39-46). *)
Definition AddLine_append (b : OutputBuffer) (line : string) : result OutputBuffer :=
  if decide (maxBufferSize b ≤ Z.of_nat (length (recentLines b))) then
    t ← slice_from_1 (recentLines b);
    Ok (with_recentLines b (t ++ [line]))
  else Ok (with_recentLines b (recentLines b ++ [line])).

(** [GetLines] (lines 53-60): a copy of the window. *)
Definition GetLines (b : OutputBuffer) : list string := recentLines b.

(** The message both delivery paths build: [map[string]string{"line": line}]. *)
Definition line_message (line : string) : message := {[ "line" := line ]}.

(** [Broadcast] (lines 88-100): one [Send] per registered client; an error
    is logged and the loop goes on. Go ranges over a map in an unspecified
    order; [map_to_list] fixes one. *)
Definition Broadcast_one (line : string) (n : sys) (entry : conn * bool) : sys :=
  let '(n', err) := Send entry.1 (line_message line) n in
  match err with
  | Some e => log_Printf ("Error sending to client: " +:+ e) n'
  | None => n'
  end.

Definition Broadcast (b : OutputBuffer) (line : string) (n : sys) : sys :=
  foldl (Broadcast_one line) n (map_to_list (clients b)).

(** [AddLine] (lines 38-50). *)
Definition AddLine (line : string) (st : OutputBuffer * sys)
  : result (OutputBuffer * sys) :=
  b' ← AddLine_append st.1 line;
  Ok (b', Broadcast b' line st.2).

(** A run of [AddLine] calls by one caller, in order. *)
Fixpoint AddLines (lines : list string) (st : OutputBuffer * sys)
  : result (OutputBuffer * sys) :=
  match lines with
  | [] => Ok st
  | l :: rest => st' ← AddLine l st; AddLines rest st'
  end.

(** [SendHistoryToClient] (lines 80-85): the errors of [Send] are dropped. *)
Definition SendHistoryToClient (b : OutputBuffer) (ws : conn) (n : sys) : sys :=
  foldl (λ n line, (Send ws (line_message line) n).1) n (GetLines b).

(** [AddClient], the section under [b.clientsMu] (lines 64-66). *)
Definition AddClient_register (b : OutputBuffer) (ws : conn) : OutputBuffer :=
  with_clients b (<[ws := true]> (clients b)).

(** [AddClient] (lines 63-70). *)
Definition AddClient (ws : conn) (st : OutputBuffer * sys) : OutputBuffer * sys :=
  let b' := AddClient_register st.1 ws in
  (b', SendHistoryToClient b' ws st.2).

(** [RemoveClient] (lines 73-77). *)
Definition RemoveClient (ws : conn) (st : OutputBuffer * sys) : OutputBuffer * sys :=
  (with_clients st.1 (delete ws (clients st.1)), st.2).

(** ** bufio.Scanner with the default split function (bufio.ScanLines)

    [ProcessStream] reads through [bufio.NewScanner(reader)], left at its
    defaults: tokens are lines, and the buffer grows up to
    [bufio.MaxScanTokenSize] bytes. A reader is the bytes it yields followed
    by how it ends; as with the pipes of [os/exec], the end is reported by a
    read of its own, after the last bytes. *)

Inductive read_end :=
  | EOF
  | ReadError (msg : string).

Record Reader := mkReader {
  contents : string;
  ending : read_end }.

Definition MaxScanTokenSize : N := 65536.

Definition ErrTooLong : string := "bufio.Scanner: token too long".

Definition newline : ascii := "010"%char.
Definition carriage_return : ascii := "013"%char.

(** [dropCR]: drops one terminal carriage return. *)
Fixpoint dropCR (s : string) : string :=
  match s with
  | EmptyString => EmptyString
  | String c rest =>
      match rest with
      | EmptyString => if Ascii.eqb c carriage_return then EmptyString else s
      | String _ _ => String c (dropCR rest)
      end
  end.

Definition token_of (held : list ascii) : string :=
  dropCR (string_of_list_ascii (reverse held)).

(** [Scanner.Err]: a clean end of input is not an error. *)
Definition Err_of (e : read_end) : option string :=
  match e with
  | EOF => None
  | ReadError msg => Some msg
  end.

(** The tokens of successive [Scan] calls and the final [Err]. [held] is the
    unterminated data in the buffer, latest byte first, and [k] its length.
    A line feed ends a token. When [MaxScanTokenSize] bytes are held without
    a line feed the buffer is full and cannot grow: the scanner stops with
    [ErrTooLong]. When the input ends, the held bytes, if any, are the last
    token. *)
Fixpoint Scan_loop (data : string) (fin : read_end) (held : list ascii) (k : N)
  : list string * option string :=
  match data with
  | EmptyString =>
      (match held with [] => [] | _ :: _ => [token_of held] end, Err_of fin)
  | String c rest =>
      if Ascii.eqb c newline then
        let '(toks, e) := Scan_loop rest fin [] 0%N in
        (token_of held :: toks, e)
      else if (MaxScanTokenSize <=? N.succ k)%N then ([], Some ErrTooLong)
      else Scan_loop rest fin (c :: held) (N.succ k)
  end.

Definition Scan (r : Reader) : list string * option string :=
  Scan_loop (contents r) (ending r) [] 0%N.

(** ** ProcessStream (main.go, lines 103-116) *)

(** [fmt.Sprintf("[%s] %s", prefix, line)], when the prefix is not empty. *)
Definition tag_line (prefix line : string) : string :=
  if decide (prefix = EmptyString) then line else "[" +:+ prefix +:+ "] " +:+ line.

Definition scanner_error_line (e : string) : string :=
  "[ERROR] Scanner error: " +:+ e.

(** The arguments of the [AddLine] calls of [ProcessStream], in order. *)
Definition ProcessStream_lines (r : Reader) (prefix : string) : list string :=
  let '(toks, err) := Scan r in
  map (tag_line prefix) toks ++
  match err with
  | Some e => [scanner_error_line e]
  | None => []
  end.

Definition ProcessStream (r : Reader) (prefix : string) (st : OutputBuffer * sys)
  : result (OutputBuffer * sys) :=
  AddLines (ProcessStream_lines r prefix) st.

(** ** The viewer's classification of a line (serveHTML, lines 225-231) *)

Inductive className := stdout | stderr | system.

(** [String.prototype.includes]. *)
Fixpoint includes (needle hay : string) : bool :=
  String.prefix needle hay ||
  match hay with
  | EmptyString => false
  | String _ rest => includes needle rest
  end.

Definition class_of (line : string) : option className :=
  if includes "[stdout]" line then Some stdout
  else if includes "[stderr]" line then Some stderr
  else if includes "[SYSTEM]" line then Some system
  else None.

(** ** strings.Fields

    [strings.Fields] splits around runs of white space as [unicode.IsSpace]
    has it, decoding the string as UTF-8. (Its ASCII-only fast path computes
    the same fields.) *)

Definition byte_val (c : ascii) : Z := Z.of_N (N_of_ascii c).

Definition RuneError : Z := 0xFFFD.

Definition is_continuation (x : Z) : bool := (0x80 <=? x) && (x <=? 0xBF).

(** The payload of continuation byte [x] appended to [acc]. *)
Definition push6 (acc x : Z) : Z := Z.lor (Z.shiftl acc 6) (Z.land x 0x3F).

(** [utf8.DecodeRuneInString]: the first rune of [s] and its width in bytes;
    a malformed or truncated sequence is [RuneError] of width 1. *)
Definition DecodeRune (s : string) : Z * nat :=
  match s with
  | EmptyString => (RuneError, 0%nat)
  | String c0 s1 =>
      let b0 := byte_val c0 in
      if b0 <? 0x80 then (b0, 1%nat)
      else if (0xC2 <=? b0) && (b0 <=? 0xDF) then
        match s1 with
        | String c1 _ =>
            if is_continuation (byte_val c1)
            then (push6 (Z.land b0 0x1F) (byte_val c1), 2%nat)
            else (RuneError, 1%nat)
        | _ => (RuneError, 1%nat)
        end
      else if (0xE0 <=? b0) && (b0 <=? 0xEF) then
        match s1 with
        | String c1 (String c2 _) =>
            let lo := if b0 =? 0xE0 then 0xA0 else 0x80 in
            let hi := if b0 =? 0xED then 0x9F else 0xBF in
            if (lo <=? byte_val c1) && (byte_val c1 <=? hi)
               && is_continuation (byte_val c2)
            then (push6 (push6 (Z.land b0 0x0F) (byte_val c1)) (byte_val c2), 3%nat)
            else (RuneError, 1%nat)
        | _ => (RuneError, 1%nat)
        end
      else if (0xF0 <=? b0) && (b0 <=? 0xF4) then
        match s1 with
        | String c1 (String c2 (String c3 _)) =>
            let lo := if b0 =? 0xF0 then 0x90 else 0x80 in
            let hi := if b0 =? 0xF4 then 0x8F else 0xBF in
            if (lo <=? byte_val c1) && (byte_val c1 <=? hi)
               && is_continuation (byte_val c2) && is_continuation (byte_val c3)
            then (push6 (push6 (push6 (Z.land b0 0x07) (byte_val c1))
                                (byte_val c2)) (byte_val c3), 4%nat)
            else (RuneError, 1%nat)
        | _ => (RuneError, 1%nat)
        end
      else (RuneError, 1%nat)
  end.

(** [unicode.IsSpace]. *)
Definition IsSpace (r : Z) : bool :=
  if r <=? 0xFF then
    ((0x09 <=? r) && (r <=? 0x0D)) || (r =? 0x20) || (r =? 0x85) || (r =? 0xA0)
  else
    (r =? 0x1680) || ((0x2000 <=? r) && (r <=? 0x200A)) || (r =? 0x2028)
    || (r =? 0x2029) || (r =? 0x202F) || (r =? 0x205F) || (r =? 0x3000).

Definition close_field (cur : option (list ascii)) : list string :=
  match cur with
  | Some field => [string_of_list_ascii (reverse field)]
  | None => []
  end.

(** [strings.FieldsFunc]: the loop [for end, rune := range s]. [skip] counts
    the bytes of the current rune still to pass; [cur] is the open field,
    latest byte first. *)
Fixpoint FieldsFunc_loop (f : Z → bool) (s : string) (skip : nat)
    (cur : option (list ascii)) : list string :=
  match s with
  | EmptyString => close_field cur
  | String c rest =>
      match skip with
      | S k => FieldsFunc_loop f rest k (cons c <$> cur)
      | O =>
          let '(r, w) := DecodeRune s in
          if f r then close_field cur ++ FieldsFunc_loop f rest (pred w) None
          else FieldsFunc_loop f rest (pred w) (Some (c :: default [] cur))
      end
  end.

Definition Fields (s : string) : list string := FieldsFunc_loop IsSpace s 0 None.

(** Every rune of [s] satisfies [f]. *)
Fixpoint all_runes (f : Z → bool) (s : string) (skip : nat) : bool :=
  match s with
  | EmptyString => true
  | String _ rest =>
      match skip with
      | S k => all_runes f rest k
      | O => let '(r, w) := DecodeRune s in f r && all_runes f rest (pred w)
      end
  end.

(** The string is empty or holds white space only. *)
Definition only_white_space (s : string) : Prop := all_runes IsSpace s 0 = true.

(** ** Concurrent callers

    [AddLine] and [AddClient] are called from several goroutines. What one
    call does under one lock is one step: [AddLine] appends under [b.mu] and
    then broadcasts under [b.clientsMu]; [AddClient] registers under
    [b.clientsMu], then [GetLines] copies the window under [b.mu], and then
    the copy is sent. Steps of different callers alternate freely. The
    sending of the copy holds no lock and is taken as one step, [ActReplay],
    placed where its last [Send] falls: a broadcast whose [Send] to the
    same viewer falls among those of the replay comes before [ActReplay]
    in the schedule, though the viewer gets a part of the copy first. So a
    schedule with a step between [ActSnapshot] and [ActReplay] gives what
    the viewer receives up to the order of the messages, and one with no
    such step gives it in order. *)

Inductive action :=
  | ActAppend (line : string)
  | ActBroadcast (line : string)
  | ActRegister (ws : conn)
  | ActSnapshot (ws : conn)
  | ActReplay (ws : conn)
  | ActRemove (ws : conn).

(** The buffer, its environment, and the local [lines] of each
    [SendHistoryToClient] under way. *)
Record machine := mkMachine {
  ob : OutputBuffer;
  env : sys;
  snapshots : gmap conn (list string) }.

Definition replay (ws : conn) (lines : list string) (n : sys) : sys :=
  foldl (λ n line, (Send ws (line_message line) n).1) n lines.

Definition step (a : action) (m : machine) : result machine :=
  match a with
  | ActAppend line =>
      b' ← AddLine_append (ob m) line; Ok (mkMachine b' (env m) (snapshots m))
  | ActBroadcast line =>
      Ok (mkMachine (ob m) (Broadcast (ob m) line (env m)) (snapshots m))
  | ActRegister ws =>
      Ok (mkMachine (AddClient_register (ob m) ws) (env m) (snapshots m))
  | ActSnapshot ws =>
      Ok (mkMachine (ob m) (env m) (<[ws := GetLines (ob m)]> (snapshots m)))
  | ActReplay ws =>
      Ok (mkMachine (ob m)
            (replay ws (default [] (snapshots m !! ws)) (env m))
            (delete ws (snapshots m)))
  | ActRemove ws =>
      Ok (mkMachine (RemoveClient ws (ob m, env m)).1 (env m) (snapshots m))
  end.

Fixpoint run (sched : list action) (m : machine) : result machine :=
  match sched with
  | [] => Ok m
  | a :: rest => m' ← step a m; run rest m'
  end.

(** The steps of one [AddLine] call and of one [AddClient] call. *)
Definition AddLine_steps (line : string) : list action :=
  [ActAppend line; ActBroadcast line].

Definition AddClient_steps (ws : conn) : list action :=
  [ActRegister ws; ActSnapshot ws; ActReplay ws].

(** [zs] alternates the steps of [xs] and of [ys], each in its order. *)
Inductive interleave : list action → list action → list action → Prop :=
  | interleave_nil : interleave [] [] []
  | interleave_l x xs ys zs :
      interleave xs ys zs → interleave (x :: xs) ys (x :: zs)
  | interleave_r y xs ys zs :
      interleave xs ys zs → interleave xs (y :: ys) (y :: zs).

(** All the ways two callers' steps can alternate, each keeping its order. *)
Fixpoint interleavings (xs ys : list action) : list (list action) :=
  let fix inner (ys : list action) : list (list action) :=
    match xs, ys with
    | [], _ => [ys]
    | _, [] => [xs]
    | x :: xs', y :: ys' =>
        map (cons x) (interleavings xs' ys) ++ map (cons y) (inner ys')
    end in
  inner ys.

(** The steps that have run when [ExecuteCommand] returns. [out] and [err]
    are the steps of the two [ProcessStream] goroutines, [caller] those of
    the final [AddLine] of [ExecuteCommand] itself, and [picks] is what the
    scheduler does: pick 0 runs the next step of the first goroutine, pick 1
    of the second, pick 2 of the caller; a pick that names nobody with a
    step to run passes. Nothing joins the goroutines: the function returns
    as soon as the caller's steps are done, their remaining steps still to
    come; when the picks run out the caller runs on alone. *)
Fixpoint steps_until_return (picks : list nat) (out err caller : list action)
  : list action :=
  match picks with
  | [] => caller
  | p :: rest =>
      match caller with
      | [] => []
      | c :: caller' =>
          match p, out, err with
          | 0%nat, a :: out', _ => a :: steps_until_return rest out' err caller
          | 1%nat, _, a :: err' => a :: steps_until_return rest out err' caller
          | 2%nat, _, _ => c :: steps_until_return rest out err caller'
          | _, _, _ => steps_until_return rest out err caller
          end
      end
  end.

Definition ProcessStream_steps (r : Reader) (prefix : string) : list action :=
  concat (map AddLine_steps (ProcessStream_lines r prefix)).

(** ** ExecuteCommand (main.go, lines 119-157) *)

(** What [os/exec] does with a command: whether the pipes and the start
    succeed, what [Wait] reports, and what each [ProcessStream] goroutine
    gets out of its pipe. [Wait] closes the pipes once the process has
    exited, whether or not the goroutines have read them to the end, so a
    reader here is either all that the process wrote, ending cleanly, or a
    part of it, ending with the error of a read on a closed file. *)
Record Cmd := mkCmd {
  StdoutPipe_err : option string;
  StderrPipe_err : option string;
  Start_err : option string;
  Stdout : Reader;
  Stderr : Reader;
  Wait_err : option string }.

Definition record_Start (argv : list string) (n : sys) : sys :=
  mkSys (inbox n) (broken n) (errlog n) (spawned n ++ [argv]).

Definition exit_line (wait_err : option string) : string :=
  match wait_err with
  | Some e => "[SYSTEM] Command exited with error: " +:+ e
  | None => "[SYSTEM] Command completed successfully"
  end.

(** [ExecuteCommand]: the state it leaves when it returns and the error it
    returns. [exec] stands for [os/exec]; [picks] is how the scheduler
    alternates the two [ProcessStream] goroutines and the caller's final
    [AddLine], which follows [cmd.Wait]. *)
Definition ExecuteCommand (exec : string → list string → Cmd) (picks : list nat)
    (command : string) (st : OutputBuffer * sys)
  : result (OutputBuffer * sys * option string) :=
  match Fields command with
  | [] => Ok (st, Some "empty command")
  | name :: args =>
      let cmd := exec name args in
      match StdoutPipe_err cmd with
      | Some e => Ok (st, Some ("failed to create stdout pipe: " +:+ e))
      | None =>
      match StderrPipe_err cmd with
      | Some e => Ok (st, Some ("failed to create stderr pipe: " +:+ e))
      | None =>
      let n1 := record_Start (name :: args) st.2 in
      match Start_err cmd with
      | Some e => Ok ((st.1, n1), Some ("failed to start command: " +:+ e))
      | None =>
          m ← run (steps_until_return picks
                     (ProcessStream_steps (Stdout cmd) "stdout")
                     (ProcessStream_steps (Stderr cmd) "stderr")
                     (AddLine_steps (exit_line (Wait_err cmd))))
                  (mkMachine st.1 n1 ∅);
          Ok ((ob m, env m), Wait_err cmd)
      end end end
  end.

(** ** WSHandler (main.go, lines 160-178) *)

(** What the successive calls of [websocket.JSON.Receive(ws, &message)]
    return to the handler: no error, with a message; [io.EOF]; or another
    error, such as a failed read or a frame that does not decode into a
    string. *)
Inductive receive_result :=
  | Received (message : string)
  | ReceiveEOF
  | ReceiveError (e : string).

Inductive handler_status := Waiting | Exited.

(** The loop around [Receive] (lines 166-176): a message is ignored; an
    error ends the loop, and is logged unless it is [io.EOF]. With no
    result yet the handler waits inside [Receive]. *)
Fixpoint WSHandler_loop (events : list receive_result) (n : sys)
  : sys * handler_status :=
  match events with
  | [] => (n, Waiting)
  | Received _ :: rest => WSHandler_loop rest n
  | ReceiveEOF :: _ => (n, Exited)
  | ReceiveError e :: _ => (log_Printf ("WebSocket error: " +:+ e) n, Exited)
  end.

(** A handler that waits in [Receive] goes on; once the loop is left the
    deferred [RemoveClient] runs. *)
Definition WSHandler_resume (ws : conn) (events : list receive_result)
    (st : OutputBuffer * sys) : OutputBuffer * sys * handler_status :=
  let '(n', status) := WSHandler_loop events st.2 in
  match status with
  | Exited => (RemoveClient ws (st.1, n'), Exited)
  | Waiting => ((st.1, n'), Waiting)
  end.

Definition WSHandler (ws : conn) (events : list receive_result)
    (st : OutputBuffer * sys) : OutputBuffer * sys * handler_status :=
  WSHandler_resume ws events (AddClient ws st).

(** The first result of [Receive] that ends the loop, if there is one:
    [Some None] for [io.EOF], [Some (Some e)] for another error. *)
Fixpoint first_end (events : list receive_result) : option (option string) :=
  match events with
  | [] => None
  | Received _ :: rest => first_end rest
  | ReceiveEOF :: _ => Some None
  | ReceiveError e :: _ => Some (Some e)
  end.

(** ** Predicates used in the statements *)

(** A buffer as [NewOutputBuffer] makes it with a positive capacity and as
    [AddLine] keeps it: the window never exceeds the capacity. *)
Definition window_ok (b : OutputBuffer) : Prop :=
  0 < maxBufferSize b ∧ Z.of_nat (length (recentLines b)) ≤ maxBufferSize b.

(** The most recent [cap] lines of [ls]. *)
Definition most_recent (cap : Z) (ls : list string) : list string :=
  drop (length ls - Z.to_nat cap) ls.

(** What the steps do as far as one viewer [ws] can tell: the window, whether
    [ws] is registered, what [ws] has received, and the snapshot taken for
    [ws] and not yet replayed. *)
Record view := mkView {
  v_lines : list string;
  v_registered : bool;
  v_inbox : list message;
  v_snapshot : list string }.

Definition view_of (ws : conn) (m : machine) : view :=
  mkView (recentLines (ob m))
         (bool_decide (is_Some (clients (ob m) !! ws)))
         (inbox_of (env m) ws)
         (default [] (snapshots m !! ws)).

Definition view_step (cap : Z) (ws : conn) (v : view) (a : action) : view :=
  match a with
  | ActAppend line =>
      mkView (most_recent cap (v_lines v ++ [line])) (v_registered v)
             (v_inbox v) (v_snapshot v)
  | ActBroadcast line =>
      mkView (v_lines v) (v_registered v)
             (v_inbox v ++ (if v_registered v then [line_message line] else []))
             (v_snapshot v)
  | ActRegister c =>
      mkView (v_lines v) (Pos.eqb c ws || v_registered v) (v_inbox v) (v_snapshot v)
  | ActSnapshot c =>
      mkView (v_lines v) (v_registered v) (v_inbox v)
             (if Pos.eqb c ws then v_lines v else v_snapshot v)
  | ActReplay c =>
      if Pos.eqb c ws
      then mkView (v_lines v) (v_registered v)
                  (v_inbox v ++ (line_message <$> v_snapshot v)) []
      else v
  | ActRemove c =>
      mkView (v_lines v) (negb (Pos.eqb c ws) && v_registered v)
             (v_inbox v) (v_snapshot v)
  end.

(** Every line of the window and of the copies under way is one of [L]. *)
Definition known (L : list string) (m : machine) : Prop :=
  (∀ l, l ∈ recentLines (ob m) → l ∈ L)
  ∧ (∀ ws ls l, snapshots m !! ws = Some ls → l ∈ ls → l ∈ L).

(** The steps of [AddLine] calls, and the lines they append and broadcast. *)
Definition is_ingest_step (a : action) : Prop :=
  match a with
  | ActAppend _ | ActBroadcast _ => True
  | _ => False
  end.

Definition appended (l : list action) : list string :=
  omap (λ a, match a with ActAppend line => Some line | _ => None end) l.

Definition broadcast_lines (l : list action) : list string :=
  omap (λ a, match a with ActBroadcast line => Some line | _ => None end) l.

(** A text line holds no line feed. *)
Definition no_newline (l : string) : Prop :=
  Forall (λ c, c ≠ newline) (list_ascii_of_string l).

Definition LF : string := String newline EmptyString.
Definition CR : string := String carriage_return EmptyString.

(** The lines, each followed by a line feed. *)
Fixpoint join_lines (ls : list string) : string :=
  match ls with
  | [] => EmptyString
  | l :: rest => l +:+ LF +:+ join_lines rest
  end.

(** The input with the line feed supplied that a final partial line lacks. *)
Fixpoint terminated (s : string) : string :=
  match s with
  | EmptyString => EmptyString
  | String c rest =>
      match rest with
      | EmptyString => if Ascii.eqb c newline then s else String c LF
      | String _ _ => String c (terminated rest)
      end
  end.

(** The longest run of bytes other than line feeds, the first run counted
    from [cur]. *)
Fixpoint longest_run (data : string) (cur : N) : N :=
  match data with
  | EmptyString => cur
  | String c rest =>
      if Ascii.eqb c newline then N.max cur (longest_run rest 0)
      else longest_run rest (N.succ cur)
  end.

Definition longest_line (data : string) : N := longest_run data 0.

Definition repeat_char (c : ascii) (n : N) : string :=
  N.iter n (String c) EmptyString.

(** The registered clients whose transport has failed. *)
Definition failing_clients (b : OutputBuffer) (n : sys) : list (conn * bool) :=
  filter (λ e, e.1 ∈ broken n) (map_to_list (clients b)).

Definition sys0 : sys := mkSys ∅ ∅ [] [].

(** The lines, each followed by a carriage return and a line feed. *)
Fixpoint join_crlf (ls : list string) : string :=
  match ls with
  | [] => EmptyString
  | l :: rest => l +:+ CR +:+ LF +:+ join_crlf rest
  end.

(** ** main (main.go, lines 259-294) *)

(** The goroutine that [main] starts for the command (lines 278-285). *)
Definition command_goroutine (exec : string → list string → Cmd) (picks : list nat)
    (command : string) (st : OutputBuffer * sys) : result (OutputBuffer * sys) :=
  st1 ← AddLine ("[SYSTEM] Executing command: " +:+ command) st;
  r ← ExecuteCommand exec picks command st1;
  Ok (match r.2 with
      | Some e => (r.1.1, log_Printf ("Command execution error: " +:+ e) r.1.2)
      | None => r.1
      end).

(** [main], as far as the command goes: [None] is [os.Exit(1)] after the
    usage message; the HTTP server and its handlers are left out. *)
Definition main (exec : string → list string → Cmd) (picks : list nat)
    (command : string) (bufferSize : Z) (n : sys)
  : result (option (OutputBuffer * sys)) :=
  if decide (command = EmptyString) then Ok None
  else
    b ← NewOutputBuffer bufferSize;
    st ← command_goroutine exec picks command (b, n);
    Ok (Some st).

Example scenario_A :
  (b ← NewOutputBuffer 3; AddLines ["a"; "b"; "c"; "d"] (b, sys0)) ≫= (λ st, Ok (GetLines st.1))
  = Ok ["b"; "c"; "d"].
Proof. vm_compute. reflexivity. Qed.

Example scan_lines_1 :
  Scan (mkReader ("ab" +:+ LF +:+ "cd" +:+ CR +:+ LF +:+ LF +:+ "e") EOF)
  = (["ab"; "cd"; EmptyString; "e"], None).
Proof. vm_compute. reflexivity. Qed.

Example scan_lines_2 :
  ProcessStream_lines (mkReader ("ab" +:+ LF +:+ "c") (ReadError "read |0: file already closed")) "stdout"
  = ["[stdout] ab"; "[stdout] c"; "[ERROR] Scanner error: read |0: file already closed"].
Proof. vm_compute. reflexivity. Qed.

Example scan_long :
  ProcessStream_lines (mkReader (repeat_char "a" 65536) EOF) "stdout"
  = ["[ERROR] Scanner error: bufio.Scanner: token too long"].
Proof. vm_compute. reflexivity. Qed.

Example scan_long2 :
  length (ProcessStream_lines (mkReader (repeat_char "a" 65535) EOF) "stdout") = 1%nat
  /\ class_of (scanner_error_line ErrTooLong) = None.
Proof. vm_compute. split; reflexivity. Qed.

Example fields_1 : Fields "  ls   -la " = ["ls"; "-la"].
Proof. vm_compute. reflexivity. Qed.

Example interleavings_count :
  length (interleavings (AddClient_steps 1%positive) (AddLine_steps "x")) = 10%nat.
Proof. vm_compute. reflexivity. Qed.

Example execute_command_run :
  let exec := λ (_ : string) (_ : list string),
    mkCmd None None None
          (mkReader ("a" +:+ LF +:+ "b" +:+ LF) EOF) (mkReader ("e" +:+ LF) EOF) None in
  let lines_at_return := λ picks,
    r ← ExecuteCommand exec picks "make  all" (mkOutputBuffer [] 10 ∅, sys0);
    Ok (GetLines r.1.1, r.2, spawned r.1.2) in
  lines_at_return [0; 0; 1; 1; 0; 0; 2; 2]%nat
  = Ok (["[stdout] a"; "[stderr] e"; "[stdout] b";
         "[SYSTEM] Command completed successfully"],
        None, [["make"; "all"]])
  ∧ lines_at_return [2; 0; 2; 0; 1]%nat
    = Ok (["[SYSTEM] Command completed successfully"; "[stdout] a"],
          None, [["make"; "all"]])
  ∧ lines_at_return []
    = Ok (["[SYSTEM] Command completed successfully"], None, [["make"; "all"]]).
Proof. vm_compute. repeat split; reflexivity. Qed.

Example handler_run :
  let st := (mkOutputBuffer ["x1"] 2 ∅, sys0) in
  (WSHandler 1%positive [] st).2 = Waiting
  ∧ (WSHandler 1%positive [Received "hi"; ReceiveEOF] st).2 = Exited
  ∧ (WSHandler 1%positive [ReceiveEOF] st).1.1 = st.1
  ∧ errlog (WSHandler 1%positive [ReceiveError "unexpected end of JSON input"] st).1.2
    = ["WebSocket error: unexpected end of JSON input"]
  ∧ inbox_of (WSHandler 1%positive [] st).1.2 1%positive = [line_message "x1"].
Proof. vm_compute. repeat split; reflexivity. Qed.

Example new_output_buffer_limits :
  NewOutputBuffer (-1) = Panic "makeslice: cap out of range"
  ∧ NewOutputBuffer (2 ^ 62) = Panic "makeslice: cap out of range"
  ∧ NewOutputBuffer 1000 = Ok (mkOutputBuffer [] 1000 ∅).
Proof. repeat split; reflexivity. Qed.

Example decode_rune :
  let str := λ l : list nat, string_of_list_ascii (ascii_of_nat <$> l) in
  DecodeRune (str [0xE3; 0x80; 0x80]%nat) = (0x3000, 3%nat)
  ∧ DecodeRune (str [0xE2; 0x80; 0xA8; 0x41]%nat) = (0x2028, 3%nat)
  ∧ DecodeRune (str [0xC3; 0xA9]%nat) = (0xE9, 2%nat)
  ∧ DecodeRune (str [0xF0; 0x9F; 0x98; 0x80]%nat) = (0x1F600, 4%nat)
  ∧ DecodeRune (str [0xC0; 0x80]%nat) = (RuneError, 1%nat)
  ∧ DecodeRune (str [0xED; 0xA0; 0x80]%nat) = (RuneError, 1%nat)
  ∧ DecodeRune (str [0xE3; 0x80]%nat) = (RuneError, 1%nat)
  ∧ Fields (str [0x61; 0xE3; 0x80; 0x80; 0xC3; 0xA9; 0x09]%nat)
    = ["a"; str [0xC3; 0xA9]%nat].
Proof. vm_compute. repeat split; reflexivity. Qed.

Example fields_nbsp :
  Fields (String (ascii_of_nat 194) (String (ascii_of_nat 160) "a b")) = ["a"; "b"]
  ∧ only_white_space (String (ascii_of_nat 194) (String (ascii_of_nat 160) " ")).
Proof. split; vm_compute; reflexivity. Qed.

(** * The replay window *)

Section ReplayWindow.

Lemma AddLine_append_window (b : OutputBuffer) (line : string) :
  window_ok b →
  ∃ b', AddLine_append b line = Ok b'
        ∧ recentLines b' = most_recent (maxBufferSize b) (recentLines b ++ [line])
        ∧ maxBufferSize b' = maxBufferSize b
        ∧ clients b' = clients b
        ∧ window_ok b'.
Proof.
  intros [Hpos Hlen]. unfold AddLine_append, most_recent.
  destruct b as [h cap cl]; simpl in *.
  rewrite length_app; simpl.
  case_decide as Hfull.
  - destruct h as [|x t]; simpl in *; [lia|].
    eexists; split; [reflexivity|]. simpl.
    replace (S (length t + 1) - Z.to_nat cap)%nat with 1%nat by lia.
    simpl. rewrite drop_0. repeat split; try done.
    simpl. rewrite length_app; simpl. lia.
  - eexists; split; [reflexivity|]. simpl.
    replace (length h + 1 - Z.to_nat cap)%nat with 0%nat by lia.
    rewrite drop_0. repeat split; try done.
    simpl. rewrite length_app; simpl. lia.
Qed.

Lemma most_recent_step (cap : Z) (h : list string) (l : string) (ls : list string) :
  most_recent cap (most_recent cap (h ++ [l]) ++ ls) = most_recent cap (h ++ l :: ls).
Proof.
  unfold most_recent.
  set (d := (length (h ++ [l]) - Z.to_nat cap)%nat).
  assert (Hd : (d ≤ length (h ++ [l]))%nat) by (unfold d; lia).
  replace (h ++ l :: ls) with ((h ++ [l]) ++ ls) by (by rewrite <- app_assoc).
  rewrite <- (drop_app_le (h ++ [l]) ls d) by done.
  rewrite drop_drop. f_equal.
  rewrite length_drop, !length_app. unfold d. rewrite !length_app. simpl. lia.
Qed.

Lemma most_recent_step_app (cap : Z) (h ls1 ls2 : list string) :
  most_recent cap (most_recent cap (h ++ ls1) ++ ls2) = most_recent cap (h ++ ls1 ++ ls2).
Proof.
  unfold most_recent.
  set (d := (length (h ++ ls1) - Z.to_nat cap)%nat).
  assert (Hd : (d ≤ length (h ++ ls1))%nat) by (unfold d; lia).
  rewrite (app_assoc h ls1 ls2).
  rewrite <- (drop_app_le (h ++ ls1) ls2 d) by done.
  rewrite drop_drop. f_equal.
  rewrite length_drop, !length_app. unfold d. rewrite !length_app. lia.
Qed.

Lemma AddLines_window (ls : list string) :
  ∀ (b : OutputBuffer) (n : sys),
    window_ok b →
    ∃ b' n', AddLines ls (b, n) = Ok (b', n')
             ∧ recentLines b' = most_recent (maxBufferSize b) (recentLines b ++ ls)
             ∧ maxBufferSize b' = maxBufferSize b
             ∧ clients b' = clients b
             ∧ window_ok b'.
Proof.
  induction ls as [|l ls IH]; intros b n Hok.
  - exists b, n. rewrite app_nil_r. repeat split; try done; try apply Hok.
    unfold most_recent. destruct Hok as [? ?].
    replace (length (recentLines b) - Z.to_nat (maxBufferSize b))%nat with 0%nat by lia.
    by rewrite drop_0.
  - destruct (AddLine_append_window b l Hok) as (b1 & Happ & Hrec & Hcap & Hcl & Hok1).
    simpl. unfold AddLine at 1. simpl. rewrite Happ. simpl.
    destruct (IH b1 (Broadcast b1 l n) Hok1) as (b' & n' & Hrun & Hrec' & Hcap' & Hcl' & Hok').
    exists b', n'. split; [exact Hrun|].
    split; [|split; [congruence|split; [congruence|exact Hok']]].
    rewrite Hrec', Hrec, Hcap. apply most_recent_step.
Qed.

Lemma NewOutputBuffer_Ok (capacity : Z) (b : OutputBuffer) :
  NewOutputBuffer capacity = Ok b →
  b = mkOutputBuffer [] capacity ∅ ∧ 0 ≤ capacity ≤ maxSliceCap.
Proof.
  unfold NewOutputBuffer. intros H.
  destruct (decide (capacity < 0)); [discriminate H|].
  destruct (decide (maxSliceCap < capacity)); [discriminate H|].
  injection H as <-. split; [done|lia].
Qed.

(** Eviction with a capacity of at least one: after capacity+K appends to a
    new buffer, [GetLines] is the last [capacity] lines, in order. *)
Lemma eviction_positive_capacity (capacity : Z) (K : nat) (ls : list string)
    (b0 : OutputBuffer) (n : sys) :
  NewOutputBuffer capacity = Ok b0 →
  1 ≤ capacity →
  length ls = (Z.to_nat capacity + K)%nat →
  ∃ b' n', AddLines ls (b0, n) = Ok (b', n')
           ∧ GetLines b' = drop K ls
           ∧ length (GetLines b') = Z.to_nat capacity.
Proof.
  intros Hnew Hcap Hlen. apply NewOutputBuffer_Ok in Hnew as [-> _].
  destruct (AddLines_window ls (mkOutputBuffer [] capacity ∅) n) as (b' & n' & Hrun & Hrec & _).
  { split; simpl; lia. }
  exists b', n'. split; [exact Hrun|]. unfold GetLines. rewrite Hrec. simpl.
  unfold most_recent. rewrite Hlen.
  replace (Z.to_nat capacity + K - Z.to_nat capacity)%nat with K by lia.
  split; [done|]. rewrite length_drop. lia.
Qed.

End ReplayWindow.

(** * Fan-out *)

Section FanOut.

Lemma inbox_of_deliver (c c' : conn) (m : message) (n : sys) :
  inbox_of (deliver c m n) c'
  = if decide (c = c') then inbox_of n c' ++ [m] else inbox_of n c'.
Proof.
  unfold inbox_of at 1, deliver; simpl. case_decide as Hc.
  - subst. by rewrite lookup_insert_eq.
  - by rewrite lookup_insert_ne.
Qed.

Lemma Send_broken (c : conn) (m : message) (n : sys) :
  broken (Send c m n).1 = broken n.
Proof. unfold Send. by case_decide. Qed.

Lemma Send_inbox (c c' : conn) (m : message) (n : sys) :
  inbox_of (Send c m n).1 c'
  = inbox_of n c' ++ (if decide (c = c' ∧ c' ∉ broken n) then [m] else []).
Proof.
  unfold Send. case_decide as Hb; simpl.
  - case_decide as Hc; [|by rewrite app_nil_r].
    destruct Hc as [-> Hc]. done.
  - rewrite inbox_of_deliver. case_decide as Hc.
    + subst. by rewrite decide_True.
    + rewrite decide_False; [by rewrite app_nil_r|]. by intros [? _].
Qed.

Lemma Broadcast_one_broken (line : string) (n : sys) (e : conn * bool) :
  broken (Broadcast_one line n e) = broken n.
Proof.
  unfold Broadcast_one.
  pose proof (Send_broken e.1 (line_message line) n) as H.
  destruct (Send e.1 (line_message line) n) as [n' [err|]]; simpl in *; done.
Qed.

Lemma Broadcast_one_inbox (line : string) (n : sys) (e : conn * bool) (c : conn) :
  inbox_of (Broadcast_one line n e) c
  = inbox_of n c
    ++ (if decide (e.1 = c ∧ c ∉ broken n) then [line_message line] else []).
Proof.
  unfold Broadcast_one.
  pose proof (Send_inbox e.1 c (line_message line) n) as H.
  destruct (Send e.1 (line_message line) n) as [n' [err|]]; simpl in *; done.
Qed.

Lemma Broadcast_one_errlog (line : string) (n : sys) (e : conn * bool) :
  length (errlog (Broadcast_one line n e))
  = (length (errlog n) + (if decide (e.1 ∈ broken n) then 1 else 0))%nat.
Proof.
  unfold Broadcast_one, Send. case_decide; simpl.
  - rewrite length_app. simpl. lia.
  - lia.
Qed.

Lemma fanout_broken (line : string) (l : list (conn * bool)) :
  ∀ n, broken (foldl (Broadcast_one line) n l) = broken n.
Proof.
  induction l as [|e l IH]; intros n; simpl; [done|].
  by rewrite IH, Broadcast_one_broken.
Qed.

Lemma fanout_inbox (line : string) (l : list (conn * bool)) (c : conn) :
  ∀ n, NoDup l.*1 →
    inbox_of (foldl (Broadcast_one line) n l) c
    = inbox_of n c
      ++ (if decide (c ∈ l.*1 ∧ c ∉ broken n) then [line_message line] else []).
Proof.
  induction l as [|e l IH]; intros n Hnd.
  - simpl. by rewrite app_nil_r.
  - rewrite fmap_cons in Hnd |- *. cbn [foldl].
    apply NoDup_cons in Hnd as [Hnotin Hnd].
    rewrite IH by done. rewrite Broadcast_one_inbox, Broadcast_one_broken.
    rewrite <- app_assoc. f_equal.
    destruct (decide (e.1 = c)) as [Heq|Hne].
    + rewrite Heq in Hnotin.
      rewrite (decide_False (P := c ∈ l.*1 ∧ _)) by (by intros [? ?]).
      rewrite app_nil_r. apply decide_ext. split.
      * intros [_ Hb]. split; [|done]. apply elem_of_cons. by left.
      * intros [_ Hb]. done.
    + rewrite (decide_False (P := e.1 = c ∧ _)) by (by intros [? ?]). simpl.
      apply decide_ext. split.
      * intros [Hin Hb]. split; [|done]. apply elem_of_cons. by right.
      * intros [Hin Hb]. split; [|done].
        apply elem_of_cons in Hin as [Hc|Hin]; [congruence|done].
Qed.

Lemma fanout_errlog (line : string) (l : list (conn * bool)) :
  ∀ n, length (errlog (foldl (Broadcast_one line) n l))
       = (length (errlog n) + length (filter (λ e, e.1 ∈ broken n) l))%nat.
Proof.
  induction l as [|e l IH]; intros n; simpl; [lia|].
  rewrite IH, Broadcast_one_errlog.
  rewrite filter_cons.
  assert (Heq : filter (λ e0 : conn * bool, e0.1 ∈ broken (Broadcast_one line n e)) l
                = filter (λ e0 : conn * bool, e0.1 ∈ broken n) l).
  { apply list_filter_iff. intros x. by rewrite Broadcast_one_broken. }
  rewrite Heq. case_decide; simpl; lia.
Qed.

Lemma registered_iff (cl : gmap conn bool) (c : conn) :
  c ∈ (map_to_list cl).*1 ↔ is_Some (cl !! c).
Proof.
  rewrite list_elem_of_fmap. split.
  - intros ([k v] & -> & Hin). apply elem_of_map_to_list in Hin. simpl. eauto.
  - intros [v Hv]. exists (c, v). split; [done|]. by apply elem_of_map_to_list.
Qed.

Lemma Broadcast_broken (b : OutputBuffer) (line : string) (n : sys) :
  broken (Broadcast b line n) = broken n.
Proof. apply fanout_broken. Qed.

(** What one [Broadcast] adds to a viewer's inbox. *)
Lemma Broadcast_inbox (b : OutputBuffer) (line : string) (n : sys) (c : conn) :
  inbox_of (Broadcast b line n) c
  = inbox_of n c
    ++ (if decide (is_Some (clients b !! c) ∧ c ∉ broken n)
        then [line_message line] else []).
Proof.
  unfold Broadcast. rewrite fanout_inbox by apply NoDup_fst_map_to_list.
  f_equal. apply decide_ext. by rewrite registered_iff.
Qed.

Lemma replay_broken (ws : conn) (lines : list string) :
  ∀ n, broken (replay ws lines n) = broken n.
Proof.
  induction lines as [|l lines IH]; intros n; simpl; [done|].
  unfold replay in *. simpl. by rewrite IH, Send_broken.
Qed.

Lemma replay_inbox (ws : conn) (lines : list string) (c : conn) :
  ∀ n, inbox_of (replay ws lines n) c
       = inbox_of n c
         ++ (if decide (ws = c ∧ c ∉ broken n) then line_message <$> lines else []).
Proof.
  induction lines as [|l lines IH]; intros n.
  - simpl. case_decide; by rewrite app_nil_r.
  - unfold replay in *. simpl. rewrite IH, Send_inbox, Send_broken.
    rewrite <- app_assoc. f_equal.
    destruct (decide (ws = c ∧ c ∉ broken n)); done.
Qed.

Lemma SendHistoryToClient_replay (b : OutputBuffer) (ws : conn) (n : sys) :
  SendHistoryToClient b ws n = replay ws (GetLines b) n.
Proof. reflexivity. Qed.

End FanOut.

(** * Ingestion seen from one viewer *)

Section Ingestion.

Lemma AddLine_inbox (line : string) (b : OutputBuffer) (n : sys) (c : conn) :
  window_ok b →
  ∃ b' n', AddLine line (b, n) = Ok (b', n')
           ∧ window_ok b'
           ∧ clients b' = clients b
           ∧ maxBufferSize b' = maxBufferSize b
           ∧ recentLines b' = most_recent (maxBufferSize b) (recentLines b ++ [line])
           ∧ broken n' = broken n
           ∧ inbox_of n' c
             = inbox_of n c
               ++ (if decide (is_Some (clients b !! c) ∧ c ∉ broken n)
                   then [line_message line] else []).
Proof.
  intros Hok.
  destruct (AddLine_append_window b line Hok) as (b1 & Happ & Hrec & Hcap & Hcl & Hok1).
  exists b1, (Broadcast b1 line n). unfold AddLine. simpl. rewrite Happ. simpl.
  repeat split; try done; try apply Hok1.
  - apply Broadcast_broken.
  - rewrite Broadcast_inbox, Hcl. done.
Qed.

Lemma AddLines_inbox (ls : list string) (c : conn) :
  ∀ (b : OutputBuffer) (n : sys),
    window_ok b →
    ∃ b' n', AddLines ls (b, n) = Ok (b', n')
             ∧ window_ok b'
             ∧ clients b' = clients b
             ∧ broken n' = broken n
             ∧ inbox_of n' c
               = inbox_of n c
                 ++ (if decide (is_Some (clients b !! c) ∧ c ∉ broken n)
                     then line_message <$> ls else []).
Proof.
  induction ls as [|l ls IH]; intros b n Hok.
  - exists b, n. repeat split; try done; try apply Hok.
    simpl. case_decide; by rewrite app_nil_r.
  - destruct (AddLine_inbox l b n c Hok)
      as (b1 & n1 & Hrun1 & Hok1 & Hcl1 & _ & _ & Hbr1 & Hin1).
    destruct (IH b1 n1 Hok1) as (b' & n' & Hrun & Hok' & Hcl' & Hbr' & Hin').
    exists b', n'. simpl. rewrite Hrun1. simpl.
    split; [exact Hrun|]. split; [exact Hok'|].
    split; [congruence|]. split; [congruence|].
    rewrite Hin', Hin1, Hcl1, Hbr1. rewrite <- app_assoc. f_equal.
    destruct (decide (is_Some (clients b !! c) ∧ c ∉ broken n)); done.
Qed.

Lemma AddClient_inbox (ws : conn) (b : OutputBuffer) (n : sys) (c : conn) :
  inbox_of (AddClient ws (b, n)).2 c
  = inbox_of n c
    ++ (if decide (ws = c ∧ c ∉ broken n) then line_message <$> recentLines b else []).
Proof. unfold AddClient. simpl. rewrite SendHistoryToClient_replay. apply replay_inbox. Qed.

Lemma line_message_fields (l : string) :
  dom (line_message l) = ({["line"]} : gset string)
  ∧ line_message l !! "line" = Some l
  ∧ line_message l !! "source" = None
  ∧ line_message l !! "text" = None
  ∧ line_message l !! "sequence" = None.
Proof.
  unfold line_message. split; [apply dom_singleton_L|].
  split; [apply lookup_singleton_eq|].
  repeat split; by apply lookup_singleton_ne.
Qed.

End Ingestion.

(** * The connection handler *)

Section Handler.

Lemma WSHandler_loop_first_end (events : list receive_result) (n : sys) :
  WSHandler_loop events n
  = match first_end events with
    | None => (n, Waiting)
    | Some None => (n, Exited)
    | Some (Some e) => (log_Printf ("WebSocket error: " +:+ e) n, Exited)
    end.
Proof. induction events as [|[m| |e] events IH]; simpl; done. Qed.

Lemma AddLine_outcome (line : string) (b : OutputBuffer) (n : sys) :
  is_Ok (AddLine line (b, n)) ↔ is_Ok (AddLine_append b line).
Proof.
  unfold AddLine. simpl. destruct (AddLine_append b line) as [b1|msg]; simpl.
  - split; intros _; eexists; reflexivity.
  - split; intros [x Hx]; discriminate.
Qed.

End Handler.

(** * The line framer *)

Section Framer.

Lemma append_nil_l (s : string) : EmptyString +:+ s = s.
Proof. reflexivity. Qed.

Lemma append_cons (c : ascii) (s t : string) :
  String c s +:+ t = String c (s +:+ t).
Proof. reflexivity. Qed.

Create Rewrite HintDb string_append.
Hint Rewrite append_cons append_nil_l : string_append.

Lemma append_nil_r (s : string) : s +:+ EmptyString = s.
Proof. induction s as [|c s IH]; autorewrite with string_append in *; [done|by rewrite IH]. Qed.

Lemma append_assoc (a b c : string) : (a +:+ b) +:+ c = a +:+ (b +:+ c).
Proof. induction a as [|x a IH]; autorewrite with string_append in *; [done|by rewrite IH]. Qed.

Lemma string_of_list_ascii_app (l1 l2 : list ascii) :
  string_of_list_ascii (l1 ++ l2)
  = string_of_list_ascii l1 +:+ string_of_list_ascii l2.
Proof.
  induction l1 as [|x l1 IH]; simpl; autorewrite with string_append in *; [done|by rewrite IH].
Qed.

Lemma held_snoc (c : ascii) (held : list ascii) :
  string_of_list_ascii (reverse (c :: held))
  = string_of_list_ascii (reverse held) +:+ String c EmptyString.
Proof. by rewrite reverse_cons, string_of_list_ascii_app. Qed.

Lemma no_newline_held (held : list ascii) :
  Forall (λ c, c ≠ newline) held →
  no_newline (string_of_list_ascii (reverse held)).
Proof.
  intros H. unfold no_newline. rewrite list_ascii_of_string_of_list_ascii.
  by apply Forall_reverse.
Qed.

Lemma terminated_newline (rest : string) :
  terminated (String newline rest) = String newline (terminated rest).
Proof. by destruct rest. Qed.

Lemma terminated_app (p q : string) :
  q ≠ EmptyString → terminated (p +:+ q) = p +:+ terminated q.
Proof.
  intros Hq. induction p as [|c p IH]; autorewrite with string_append in *; [done|].
  rewrite <- IH. simpl. destruct (p +:+ q) eqn:E; [|done].
  destruct p; autorewrite with string_append in *; [congruence|discriminate].
Qed.

Lemma longest_run_ge (data : string) : ∀ k, (k ≤ longest_run data k)%N.
Proof.
  induction data as [|c data IH]; intros k; simpl; [lia|].
  destruct (Ascii.eqb c newline); [lia|].
  specialize (IH (N.succ k)). lia.
Qed.

(** With no line reaching the limit the scanner yields the lines of the
    input, each without its terminator, and ends as the reader ends. *)
Lemma Scan_loop_lines (data : string) (fin : read_end) :
  ∀ (held : list ascii) (k : N),
    Forall (λ c, c ≠ newline) held →
    (longest_run data k < MaxScanTokenSize)%N →
    ∃ raws, Scan_loop data fin held k = (dropCR <$> raws, Err_of fin)
            ∧ Forall no_newline raws
            ∧ join_lines raws
              = terminated (string_of_list_ascii (reverse held) +:+ data).
Proof.
  induction data as [|c data IH]; intros held k Hheld Hrun.
  - simpl. rewrite append_nil_r. destruct held as [|c held].
    + exists []. done.
    + exists [string_of_list_ascii (reverse (c :: held))].
      split; [done|]. split.
      * apply Forall_singleton. by apply no_newline_held.
      * simpl. rewrite held_snoc.
        rewrite terminated_app by done. simpl.
        apply Forall_cons in Hheld as [Hc _].
        destruct (Ascii.eqb_spec c newline) as [->|_]; [done|].
        by rewrite append_assoc.
  - simpl in Hrun |- *. destruct (Ascii.eqb_spec c newline) as [->|Hc].
    + destruct (IH [] 0%N) as (raws & Hscan & Hnl & Hjoin); [done|lia|].
      rewrite Hscan.
      exists (string_of_list_ascii (reverse held) :: raws).
      split; [done|]. split.
      * apply Forall_cons. split; [by apply no_newline_held|done].
      * simpl. rewrite Hjoin. simpl. autorewrite with string_append in *.
        rewrite terminated_app by done. rewrite terminated_newline.
        unfold LF. by autorewrite with string_append in *.
    + pose proof (longest_run_ge data (N.succ k)) as Hge.
      destruct (N.leb_spec MaxScanTokenSize (N.succ k)) as [Hle|_]; [lia|].
      destruct (IH (c :: held) (N.succ k)) as (raws & Hscan & Hnl & Hjoin).
      { by apply Forall_cons. }
      { exact Hrun. }
      exists raws. split; [exact Hscan|]. split; [exact Hnl|].
      rewrite Hjoin, held_snoc, append_assoc. done.
Qed.

(** A read that fails leaves the scanner with an error: the one the reader
    reported, or [ErrTooLong] when a line hit the limit first. *)
Lemma Scan_loop_read_error (data e : string) :
  ∀ (held : list ascii) (k : N),
    ∃ toks e', Scan_loop data (ReadError e) held k = (toks, Some e')
               ∧ (e' = e ∨ e' = ErrTooLong).
Proof.
  induction data as [|c data IH]; intros held k; simpl.
  - eexists _, e. split; [reflexivity|by left].
  - destruct (Ascii.eqb c newline).
    + destruct (IH [] 0%N) as (toks & e' & -> & He).
      eexists _, e'. split; [reflexivity|done].
    + destruct (MaxScanTokenSize <=? N.succ k)%N.
      * eexists _, ErrTooLong. split; [reflexivity|by right].
      * apply IH.
Qed.

(** [MaxScanTokenSize] bytes without a line feed stop the scanner, whatever
    follows. *)
Lemma Scan_loop_too_long (long rest : string) (fin : read_end) :
  ∀ (held : list ascii) (k : N),
    no_newline long →
    (k < MaxScanTokenSize ≤ k + N.of_nat (String.length long))%N →
    Scan_loop (long +:+ rest) fin held k = ([], Some ErrTooLong).
Proof.
  induction long as [|c long IH]; intros held k Hnl Hk.
  - simpl in Hk. lia.
  - autorewrite with string_append in *. simpl. apply Forall_cons in Hnl as [Hc Hnl].
    destruct (Ascii.eqb_spec c newline) as [->|_]; [done|].
    destruct (N.leb_spec MaxScanTokenSize (N.succ k)) as [_|Hlt]; [done|].
    apply IH; [exact Hnl|]. simpl in Hk. lia.
Qed.

(** A line below the limit, with its line feed, is one token. *)
Lemma Scan_loop_one_line (l rest : string) (fin : read_end) :
  ∀ (held : list ascii) (k : N),
    no_newline l →
    (k + N.of_nat (String.length l) < MaxScanTokenSize)%N →
    Scan_loop (l +:+ LF +:+ rest) fin held k
    = (dropCR (string_of_list_ascii (reverse held) +:+ l)
         :: (Scan_loop rest fin [] 0%N).1,
       (Scan_loop rest fin [] 0%N).2).
Proof.
  induction l as [|c l IH]; intros held k Hnl Hk.
  - simpl. autorewrite with string_append in *. rewrite append_nil_r. unfold token_of.
    by destruct (Scan_loop rest fin [] 0%N).
  - autorewrite with string_append in *. simpl. apply Forall_cons in Hnl as [Hc Hnl].
    destruct (Ascii.eqb_spec c newline) as [->|_]; [done|].
    simpl in Hk.
    destruct (N.leb_spec MaxScanTokenSize (N.succ k)) as [Hle|_]; [lia|].
    rewrite IH; [|exact Hnl|lia].
    by rewrite held_snoc, append_assoc.
Qed.

Lemma Scan_loop_short_lines (raws : list string) (rest : string) (fin : read_end) :
  Forall (λ l, no_newline l ∧ (N.of_nat (String.length l) < MaxScanTokenSize)%N) raws →
  Scan_loop (join_lines raws +:+ rest) fin [] 0%N
  = ((dropCR <$> raws) ++ (Scan_loop rest fin [] 0%N).1,
     (Scan_loop rest fin [] 0%N).2).
Proof.
  induction raws as [|l raws IH]; intros Hall.
  - cbn [join_lines]. autorewrite with string_append in *. simpl.
    by destruct (Scan_loop rest fin [] 0%N).
  - apply Forall_cons in Hall as [[Hnl Hlen] Hall].
    cbn [join_lines]. rewrite !append_assoc.
    rewrite Scan_loop_one_line by (done || lia).
    rewrite IH by done. simpl. by autorewrite with string_append in *.
Qed.

End Framer.

Section FramerRuns.

Lemma no_newline_repeat_char (c : ascii) (n : N) :
  c ≠ newline → no_newline (repeat_char c n).
Proof.
  intros Hc. unfold repeat_char, no_newline.
  induction n as [|n IH] using N.peano_ind; [by constructor|].
  rewrite N.iter_succ. simpl. by constructor.
Qed.

Lemma length_repeat_char (c : ascii) (n : N) :
  N.of_nat (String.length (repeat_char c n)) = n.
Proof.
  unfold repeat_char.
  induction n as [|n IH] using N.peano_ind; [done|].
  rewrite N.iter_succ. simpl. lia.
Qed.

Lemma ProcessStream_runs (r : Reader) (prefix : string) (b : OutputBuffer)
    (n : sys) (c : conn) :
  window_ok b →
  ∃ b' n', ProcessStream r prefix (b, n) = Ok (b', n')
           ∧ recentLines b'
             = most_recent (maxBufferSize b)
                 (recentLines b ++ ProcessStream_lines r prefix)
           ∧ inbox_of n' c
             = inbox_of n c
               ++ (if decide (is_Some (clients b !! c) ∧ c ∉ broken n)
                   then line_message <$> ProcessStream_lines r prefix else []).
Proof.
  intros Hok. unfold ProcessStream.
  destruct (AddLines_window (ProcessStream_lines r prefix) b n Hok)
    as (b1 & n1 & Hrun1 & Hrec & _).
  destruct (AddLines_inbox (ProcessStream_lines r prefix) c b n Hok)
    as (b2 & n2 & Hrun2 & _ & _ & _ & Hin).
  rewrite Hrun1 in Hrun2. injection Hrun2 as <- <-.
  exists b1, n1. done.
Qed.

End FramerRuns.

(** * The command line *)

Section CommandLine.

Lemma FieldsFunc_loop_open (f : Z → bool) (s : string) :
  ∀ (skip : nat) (cur : list ascii), FieldsFunc_loop f s skip (Some cur) ≠ [].
Proof.
  induction s as [|c s IH]; intros skip cur; [done|].
  cbn [FieldsFunc_loop]. destruct skip as [|k]; [|apply IH].
  destruct (DecodeRune (String c s)) as [r w].
  destruct (f r); [done|apply IH].
Qed.

Lemma FieldsFunc_loop_nil (f : Z → bool) (s : string) :
  ∀ skip : nat, FieldsFunc_loop f s skip None = [] ↔ all_runes f s skip = true.
Proof.
  induction s as [|c s IH]; intros skip; [done|].
  cbn [FieldsFunc_loop all_runes]. destruct skip as [|k]; [|apply IH].
  destruct (DecodeRune (String c s)) as [r w].
  destruct (f r); simpl.
  - apply IH.
  - split; [|done]. intros H. by apply FieldsFunc_loop_open in H.
Qed.

(** [Fields] finds no field exactly in the strings that are empty or all
    white space. *)
Lemma Fields_nil_iff (s : string) : Fields s = [] ↔ only_white_space s.
Proof. apply FieldsFunc_loop_nil. Qed.

End CommandLine.

(** * Joining while lines are ingested *)

Section Join.

Variable ws : conn.

Lemma step_view (a : action) (m : machine) :
  window_ok (ob m) →
  ws ∉ broken (env m) →
  ∃ m', step a m = Ok m'
        ∧ window_ok (ob m')
        ∧ (ws ∉ broken (env m'))
        ∧ maxBufferSize (ob m') = maxBufferSize (ob m)
        ∧ view_of ws m' = view_step (maxBufferSize (ob m)) ws (view_of ws m) a.
Proof.
  intros Hok Hws. destruct m as [b n sn]. simpl in *.
  destruct a as [line|line|c|c|c|c]; simpl.
  - destruct (AddLine_append_window b line Hok) as (b1 & Happ & Hrec & Hcap & Hcl & Hok1).
    rewrite Happ. simpl. eexists. split; [reflexivity|]. simpl.
    repeat split; try done; try apply Hok1.
    unfold view_of, view_step. simpl. by rewrite Hrec, Hcl.
  - eexists. split; [reflexivity|]. simpl.
    repeat split; try done; try apply Hok.
    + by rewrite Broadcast_broken.
    + unfold view_of, view_step. simpl. f_equal.
      rewrite Broadcast_inbox. f_equal.
      destruct (decide (is_Some (clients b !! ws))) as [Hs|Hs].
      * rewrite decide_True by done. by rewrite bool_decide_eq_true_2.
      * rewrite decide_False by (by intros [? ?]). by rewrite bool_decide_eq_false_2.
  - eexists. split; [reflexivity|]. simpl.
    repeat split; try done; try apply Hok.
    unfold view_of, view_step. simpl. f_equal.
    destruct (Pos.eqb_spec c ws) as [->|Hne]; simpl.
    + apply bool_decide_eq_true_2. rewrite lookup_insert_eq. eauto.
    + apply bool_decide_ext. by rewrite lookup_insert_ne.
  - eexists. split; [reflexivity|]. simpl.
    repeat split; try done; try apply Hok.
    unfold view_of, view_step. simpl. f_equal.
    destruct (Pos.eqb_spec c ws) as [->|Hne].
    + by rewrite lookup_insert_eq.
    + by rewrite lookup_insert_ne.
  - eexists. split; [reflexivity|]. simpl.
    repeat split; try done; try apply Hok.
    + by rewrite replay_broken.
    + unfold view_of, view_step. simpl.
      destruct (Pos.eqb_spec c ws) as [->|Hne].
      * rewrite replay_inbox, decide_True by done. by rewrite lookup_delete_eq.
      * rewrite replay_inbox, decide_False by (by intros [? ?]).
        by rewrite app_nil_r, lookup_delete_ne.
  - eexists. split; [reflexivity|]. simpl.
    repeat split; try done; try apply Hok.
    unfold view_of, view_step. simpl. f_equal.
    destruct (Pos.eqb_spec c ws) as [->|Hne]; simpl.
    + apply bool_decide_eq_false_2. rewrite lookup_delete_eq. by intros [? ?].
    + apply bool_decide_ext. by rewrite lookup_delete_ne.
Qed.

Lemma run_view (sched : list action) :
  ∀ m, window_ok (ob m) →
       ws ∉ broken (env m) →
       ∃ m', run sched m = Ok m'
             ∧ view_of ws m'
               = foldl (view_step (maxBufferSize (ob m)) ws) (view_of ws m) sched.
Proof.
  induction sched as [|a sched IH]; intros m Hok Hws.
  - exists m. done.
  - destruct (step_view a m Hok Hws) as (m1 & Hstep & Hok1 & Hws1 & Hcap & Hview).
    destruct (IH m1 Hok1 Hws1) as (m' & Hrun & Hview').
    exists m'. simpl. rewrite Hstep. simpl. split; [exact Hrun|].
    by rewrite Hview', Hcap, Hview.
Qed.

Lemma most_recent_id (cap : Z) (h : list string) :
  Z.of_nat (length h) ≤ cap → most_recent cap h = h.
Proof.
  intros Hlen. unfold most_recent.
  replace (length h - Z.to_nat cap)%nat with 0%nat by lia. apply drop_0.
Qed.

Lemma most_recent_length (cap : Z) (h : list string) :
  0 ≤ cap → Z.of_nat (length (most_recent cap h)) ≤ cap.
Proof. intros Hcap. unfold most_recent. rewrite length_drop. lia. Qed.

(** A run of ingest steps, as one viewer sees it. *)
Lemma view_ingest (cap : Z) (l : list action) :
  ∀ v, 0 ≤ cap →
       Z.of_nat (length (v_lines v)) ≤ cap →
       Forall is_ingest_step l →
       foldl (view_step cap ws) v l
       = mkView (most_recent cap (v_lines v ++ appended l))
                (v_registered v)
                (v_inbox v ++ (if v_registered v
                               then line_message <$> broadcast_lines l else []))
                (v_snapshot v).
Proof.
  induction l as [|a l IH]; intros v Hcap Hlen Hall.
  - simpl. rewrite !app_nil_r, most_recent_id by done.
    destruct v as [? [] ? ?]; simpl; by rewrite ?app_nil_r.
  - apply Forall_cons in Hall as [Ha Hall].
    destruct a as [line|line|c|c|c|c]; try done; cbn [foldl].
    + rewrite IH; [|done|by apply most_recent_length|done]. simpl.
      by rewrite most_recent_step.
    + rewrite IH by done. simpl. f_equal.
      rewrite <- app_assoc. by destruct (v_registered v).
Qed.

(** The join of a new viewer among any number of [AddLine] calls. The steps
    before the registration are [pre], those between registration and
    snapshot [mid1], those between snapshot and replay [mid2], those after
    the replay [post]. The viewer gets live what is broadcast after the
    registration, and replayed the window of the moment of the snapshot. *)
Lemma join_among_ingests (b : OutputBuffer) (n : sys)
    (pre mid1 mid2 post : list action) :
  window_ok b →
  ws ∉ broken n →
  clients b !! ws = None →
  Forall is_ingest_step pre → Forall is_ingest_step mid1 →
  Forall is_ingest_step mid2 → Forall is_ingest_step post →
  ∃ m, run (pre ++ ActRegister ws :: mid1 ++ ActSnapshot ws :: mid2
                ++ ActReplay ws :: post) (mkMachine b n ∅) = Ok m
       ∧ inbox_of (env m) ws
         = inbox_of n ws
           ++ (line_message <$>
                 (broadcast_lines mid1 ++ broadcast_lines mid2
                  ++ most_recent (maxBufferSize b)
                       (recentLines b ++ appended pre ++ appended mid1)
                  ++ broadcast_lines post)).
Proof.
  intros Hok Hws Hnew Hpre Hmid1 Hmid2 Hpost.
  destruct Hok as [Hpos Hlen].
  destruct (run_view (pre ++ ActRegister ws :: mid1 ++ ActSnapshot ws :: mid2
                          ++ ActReplay ws :: post) (mkMachine b n ∅))
    as (m & Hrun & Hview); [by split|done|].
  exists m. split; [exact Hrun|].
  apply (f_equal v_inbox) in Hview.
  change (v_inbox (view_of ws m)) with (inbox_of (env m) ws) in Hview.
  rewrite Hview. clear Hview Hrun.
  assert (Hv0 : view_of ws (mkMachine b n ∅)
                = mkView (recentLines b) false (inbox_of n ws) []).
  { unfold view_of. simpl. rewrite lookup_empty. simpl. f_equal.
    apply bool_decide_eq_false_2. rewrite Hnew. by intros [? ?]. }
  rewrite Hv0. cbn [ob].
  rewrite foldl_app, (view_ingest _ pre); [|lia|exact Hlen|done].
  cbn [foldl view_step v_lines v_registered v_inbox v_snapshot].
  rewrite Pos.eqb_refl. cbn [orb].
  rewrite foldl_app, (view_ingest _ mid1);
    [|lia|cbn; apply most_recent_length; lia|done].
  cbn [foldl view_step v_lines v_registered v_inbox v_snapshot].
  rewrite Pos.eqb_refl.
  rewrite foldl_app, (view_ingest _ mid2);
    [|lia|cbn; apply most_recent_length; lia|done].
  cbn [foldl view_step v_lines v_registered v_inbox v_snapshot].
  rewrite Pos.eqb_refl.
  rewrite (view_ingest _ post);
    [|lia|cbn; apply most_recent_length; lia|done].
  cbn [v_inbox v_registered].
  rewrite !app_nil_r. rewrite !fmap_app, <- !app_assoc.
  rewrite most_recent_step_app. done.
Qed.

End Join.

Section Interleavings.

Lemma interleave_nil_l (ys zs : list action) : interleave [] ys zs ↔ zs = ys.
Proof.
  split.
  - remember [] as xs eqn:Hxs. induction 1 as [|x xs ys zs H IH|y xs ys zs H IH].
    + done.
    + discriminate Hxs.
    + by rewrite IH.
  - intros ->. induction ys as [|y ys IH]; by constructor.
Qed.

Lemma interleave_nil_r (xs zs : list action) : interleave xs [] zs ↔ zs = xs.
Proof.
  split.
  - remember [] as ys eqn:Hys. induction 1 as [|x xs ys zs H IH|y xs ys zs H IH].
    + done.
    + by rewrite IH.
    + discriminate Hys.
  - intros ->. induction xs as [|x xs IH]; by constructor.
Qed.

Lemma interleavings_cons (x y : action) (xs ys : list action) :
  interleavings (x :: xs) (y :: ys)
  = map (cons x) (interleavings xs (y :: ys))
    ++ map (cons y) (interleavings (x :: xs) ys).
Proof. reflexivity. Qed.

(** [interleavings] lists exactly the interleavings. *)
Lemma interleavings_spec (xs : list action) :
  ∀ ys zs, zs ∈ interleavings xs ys ↔ interleave xs ys zs.
Proof.
  induction xs as [|x xs IHx]; intros ys zs.
  - rewrite interleave_nil_l. destruct ys; simpl; by rewrite list_elem_of_singleton.
  - revert zs. induction ys as [|y ys IHy]; intros zs.
    + rewrite interleave_nil_r. simpl. by rewrite list_elem_of_singleton.
    + rewrite interleavings_cons, elem_of_app, !list_elem_of_fmap. split.
      * intros [(zs' & -> & Hin)|(zs' & -> & Hin)].
        -- apply interleave_l. by apply IHx.
        -- apply interleave_r. by apply IHy.
      * inversion 1 as [|x' xs' ys' zs' H'|y' xs' ys' zs' H']; subst.
        -- left. exists zs'. split; [done|]. by apply IHx.
        -- right. exists zs'. split; [done|]. by apply IHy.
Qed.

(** The steps of a call, run without interruption, are the call. *)
Lemma run_AddLine_steps (line : string) (b : OutputBuffer) (n : sys)
    (sn : gmap conn (list string)) :
  run (AddLine_steps line) (mkMachine b n sn)
  = (st ← AddLine line (b, n); Ok (mkMachine st.1 st.2 sn)).
Proof.
  unfold AddLine_steps, AddLine. simpl.
  by destruct (AddLine_append b line).
Qed.

Lemma run_AddClient_steps (ws : conn) (b : OutputBuffer) (n : sys)
    (sn : gmap conn (list string)) :
  run (AddClient_steps ws) (mkMachine b n sn)
  = Ok (mkMachine (AddClient ws (b, n)).1 (AddClient ws (b, n)).2 (delete ws sn)).
Proof.
  unfold AddClient_steps, AddClient. simpl.
  by rewrite lookup_insert_eq, delete_insert_eq.
Qed.

(** Where the first step of the left caller falls. *)
Lemma interleave_cons_l (x : action) (xs ys zs : list action) :
  interleave (x :: xs) ys zs →
  ∃ pre ys' zs', zs = pre ++ x :: zs' ∧ ys = pre ++ ys' ∧ interleave xs ys' zs'.
Proof.
  remember (x :: xs) as l eqn:Hl. intros H. revert x xs Hl.
  induction H as [|x' xs' ys zs H IH|y xs' ys zs H IH]; intros x xs Hl.
  - discriminate Hl.
  - injection Hl as -> ->. by exists [], ys, zs.
  - destruct (IH x xs Hl) as (pre & ys' & zs' & -> & -> & Hrest).
    by exists (y :: pre), ys', zs'.
Qed.

Lemma AddLine_append_lines (b b' : OutputBuffer) (line l : string) :
  AddLine_append b line = Ok b' →
  l ∈ recentLines b' →
  l ∈ recentLines b ∨ l = line.
Proof.
  unfold AddLine_append. intros Happ Hl. case_decide.
  - destruct (recentLines b) as [|x t]; simpl in Happ; [discriminate Happ|].
    injection Happ as <-. simpl in Hl.
    apply elem_of_app in Hl as [Hl|Hl].
    + left. by apply list_elem_of_further.
    + right. by apply list_elem_of_singleton in Hl.
  - injection Happ as <-. simpl in Hl.
    apply elem_of_app in Hl as [Hl|Hl]; [by left|].
    right. by apply list_elem_of_singleton in Hl.
Qed.

(** Every message that a step puts into an inbox is the object with the one
    field ["line"], for a line of the window, of a copy under way, or of the
    step itself. *)
Lemma step_known (a : action) (m m1 : machine) (L : list string) :
  step a m = Ok m1 →
  known L m →
  known (L ++ appended [a]) m1
  ∧ ∀ c msg, msg ∈ inbox_of (env m1) c →
             msg ∈ inbox_of (env m) c
             ∨ ∃ l, msg = line_message l ∧ (l ∈ L ∨ l ∈ broadcast_lines [a]).
Proof.
  intros Hstep [Hwin Hsnap].
  destruct a as [line|line|ws|ws|ws|ws]; cbn [step] in Hstep.
  - destruct (AddLine_append (ob m) line) as [b'|] eqn:Happ; simpl in Hstep;
      [|discriminate].
    injection Hstep as <-. split; [split|]; cbn.
    + intros l Hl. apply elem_of_app.
      destruct (AddLine_append_lines _ _ _ _ Happ Hl) as [Hold| ->].
      * left. by apply Hwin.
      * right. apply list_elem_of_here.
    + intros ws ls l Hls Hl. apply elem_of_app. left. by eapply Hsnap.
    + intros c msg Hin. by left.
  - injection Hstep as <-. split; [split|]; cbn; rewrite ?app_nil_r; try done.
    intros c msg Hin. rewrite Broadcast_inbox in Hin.
    apply elem_of_app in Hin as [Hin|Hin]; [by left|].
    case_decide; [|by apply elem_of_nil in Hin].
    apply list_elem_of_singleton in Hin. right. exists line.
    split; [done|]. right. apply list_elem_of_here.
  - injection Hstep as <-. split; [split|]; cbn; rewrite ?app_nil_r; try done.
    intros c msg Hin. by left.
  - injection Hstep as <-. split; [split|]; cbn; rewrite ?app_nil_r; try done.
    + intros c ls l Hls Hl. destruct (decide (ws = c)) as [->|Hne].
      * rewrite lookup_insert_eq in Hls. injection Hls as <-. by apply Hwin.
      * rewrite lookup_insert_ne in Hls by done. by eapply Hsnap.
    + intros c msg Hin. by left.
  - injection Hstep as <-. split; [split|]; cbn; rewrite ?app_nil_r; try done.
    + intros c ls l Hls Hl. apply lookup_delete_Some in Hls as [_ Hls].
      by eapply Hsnap.
    + intros c msg Hin. rewrite replay_inbox in Hin.
      apply elem_of_app in Hin as [Hin|Hin]; [by left|].
      case_decide; [|by apply elem_of_nil in Hin].
      apply list_elem_of_fmap in Hin as (l & -> & Hl). right. exists l.
      split; [done|]. left.
      destruct (snapshots m !! ws) as [ls|] eqn:Hls; simpl in Hl.
      * by eapply Hsnap.
      * by apply elem_of_nil in Hl.
  - injection Hstep as <-. split; [split|]; cbn; rewrite ?app_nil_r; try done.
    intros c msg Hin. by left.
Qed.

Lemma run_known (sched : list action) :
  ∀ (m m' : machine) (L : list string) (c : conn) (msg : message),
    known L m →
    run sched m = Ok m' →
    msg ∈ inbox_of (env m') c →
    msg ∈ inbox_of (env m) c
    ∨ ∃ l, msg = line_message l
           ∧ (l ∈ L ∨ l ∈ appended sched ∨ l ∈ broadcast_lines sched).
Proof.
  induction sched as [|a sched IH]; intros m m' L c msg Hknown Hrun Hin;
    simpl in Hrun.
  - injection Hrun as <-. by left.
  - destruct (step a m) as [m1|] eqn:Hstep; simpl in Hrun; [|discriminate].
    destruct (step_known a m m1 L Hstep Hknown) as [Hknown1 Hstep1].
    assert (Ha : appended (a :: sched) = appended [a] ++ appended sched)
      by (by destruct a).
    assert (Hb : broadcast_lines (a :: sched)
                 = broadcast_lines [a] ++ broadcast_lines sched)
      by (by destruct a).
    rewrite Ha, Hb.
    destruct (IH m1 m' _ c msg Hknown1 Hrun Hin) as [Hold|(l & -> & Hl)].
    + destruct (Hstep1 c msg Hold) as [Hold'|(l & -> & Hl)]; [by left|].
      right. exists l. split; [done|]. rewrite !elem_of_app. tauto.
    + right. exists l. split; [done|]. rewrite !elem_of_app in *. tauto.
Qed.

End Interleavings.

Section JoinHelpers.

Lemma most_recent_keeps_last (cap : Z) (h : list string) (line : string) :
  0 < cap → line ∈ most_recent cap (h ++ [line]).
Proof.
  intros Hcap. unfold most_recent. rewrite length_app. simpl.
  rewrite drop_app_le by lia. apply elem_of_app. right. by apply list_elem_of_singleton.
Qed.

Lemma view_of_new (ws : conn) (b : OutputBuffer) (n : sys) :
  clients b !! ws = None →
  view_of ws (mkMachine b n ∅) = mkView (recentLines b) false (inbox_of n ws) [].
Proof.
  intros Hnew. unfold view_of. simpl. rewrite lookup_empty. simpl. f_equal.
  apply bool_decide_eq_false_2. rewrite Hnew. by intros [? ?].
Qed.

(** The line of one [AddLine] is in the window when the copy is taken, or
    is broadcast after the registration. *)
Lemma single_line_kept (cap : Z) (h : list string) (line : string)
    (pre mid1 rest : list action) :
  0 < cap →
  pre ++ mid1 ++ rest = AddLine_steps line →
  line ∈ most_recent cap (h ++ appended (pre ++ mid1))
         ++ broadcast_lines (mid1 ++ rest).
Proof.
  intros Hcap Heq. apply elem_of_app. unfold AddLine_steps in Heq.
  destruct pre as [|a pre]; simpl in Heq.
  - right. rewrite Heq. cbn. apply list_elem_of_here.
  - injection Heq as -> Heq. destruct pre as [|a' pre]; simpl in Heq.
    + right. rewrite Heq. cbn. apply list_elem_of_here.
    + injection Heq as -> Heq.
      apply app_eq_nil in Heq as [-> Heq]. apply app_eq_nil in Heq as [-> ->].
      left. cbn. by apply most_recent_keeps_last.
Qed.

End JoinHelpers.

(** * The claims *)

(** C1, as stated, fails: the join is not one step with respect to
    ingestion. A viewer joins a buffer that holds "x1" while "x2" is
    ingested: the viewer is registered, "x2" is appended and broadcast, and
    then the snapshot, which now holds "x2", is replayed. The viewer gets
    "x2" twice. *)
Lemma join_race_counterexample :
  let sched := [ActRegister 1%positive; ActAppend "x2"; ActBroadcast "x2";
                ActSnapshot 1%positive; ActReplay 1%positive] in
  interleave (AddClient_steps 1%positive) (AddLine_steps "x2") sched
  ∧ ∃ m, run sched (mkMachine (mkOutputBuffer ["x1"] 2 ∅) sys0 ∅) = Ok m
         ∧ inbox_of (env m) 1%positive
           = [line_message "x2"; line_message "x1"; line_message "x2"]
         ∧ length (filter (λ x, x = line_message "x2") (inbox_of (env m) 1%positive))
           = 2%nat.
Proof.
  intros sched. split.
  { apply interleavings_spec. cbn.
    do 5 apply list_elem_of_further. apply list_elem_of_here. }
  destruct (run_view 1%positive sched (mkMachine (mkOutputBuffer ["x1"] 2 ∅) sys0 ∅))
    as (m & Hrun & Hview).
  { unfold window_ok. simpl. lia. }
  { simpl. apply not_elem_of_empty. }
  exists m. split; [exact Hrun|].
  rewrite view_of_new in Hview by reflexivity.
  apply (f_equal v_inbox) in Hview. cbn in Hview.
  assert (Hbox : inbox_of (env m) 1%positive
                 = [line_message "x2"; line_message "x1"; line_message "x2"])
    by exact Hview.
  split; [exact Hbox|]. rewrite Hbox.
  rewrite !filter_cons, filter_nil.
  rewrite decide_True by done.
  rewrite decide_False.
  - by rewrite decide_True.
  - intros Heq. apply (f_equal (λ x : message, x !! "line")) in Heq.
    unfold line_message in Heq. rewrite !lookup_singleton_eq in Heq. discriminate Heq.
Qed.

(** C1, amended. [AddClient] is three steps, not one: it registers the
    client under [clientsMu], then [GetLines] copies the window under [mu],
    and then the copy is sent with no lock held. The steps of any number of
    [AddLine] calls can fall before, between and after them. For every such
    schedule the join of a new, reachable client goes through, and the
    client is sent the window as it is at the moment of the copy and every
    line that is broadcast after the registration, each of the two in its
    own order, and nothing else: a line that is in the copy and is
    broadcast after the registration comes twice, and how the replayed and
    the live messages alternate is not fixed. The line of a single [AddLine]
    is never missed. When no step of an ingestion falls between the
    registration and the end of the replay, the client gets the window
    first and then each line broadcast afterwards, once. *)
Theorem join_interleavings (ws : conn) (b : OutputBuffer) (n : sys)
    (ingest sched : list action) :
  window_ok b →
  ws ∉ broken n →
  clients b !! ws = None →
  Forall is_ingest_step ingest →
  interleave (AddClient_steps ws) ingest sched →
  ∃ pre mid1 mid2 post m,
    sched = pre ++ ActRegister ws :: mid1 ++ ActSnapshot ws :: mid2
                ++ ActReplay ws :: post
    ∧ ingest = pre ++ mid1 ++ mid2 ++ post
    ∧ run sched (mkMachine b n ∅) = Ok m
    ∧ let snap := most_recent (maxBufferSize b)
                    (recentLines b ++ appended (pre ++ mid1)) in
      let live := broadcast_lines (mid1 ++ mid2 ++ post) in
      inbox_of (env m) ws ≡ₚ inbox_of n ws ++ (line_message <$> (snap ++ live))
      ∧ inbox_of n ws `prefix_of` inbox_of (env m) ws
      ∧ (line_message <$> snap) `sublist_of` inbox_of (env m) ws
      ∧ (line_message <$> live) `sublist_of` inbox_of (env m) ws
      ∧ (∀ line, ingest = AddLine_steps line → line ∈ snap ++ live)
      ∧ (mid1 = [] → mid2 = [] →
         inbox_of (env m) ws = inbox_of n ws ++ (line_message <$> (snap ++ live))).
Proof.
  intros Hok Hws Hnew Hall Hsched.
  apply interleave_cons_l in Hsched as (pre & y1 & z1 & -> & -> & Hsched).
  apply interleave_cons_l in Hsched as (mid1 & y2 & z2 & -> & -> & Hsched).
  apply interleave_cons_l in Hsched as (mid2 & post & z3 & -> & -> & Hsched).
  apply interleave_nil_l in Hsched as ->.
  apply Forall_app in Hall as [Hpre Hall].
  apply Forall_app in Hall as [Hmid1 Hall].
  apply Forall_app in Hall as [Hmid2 Hpost].
  destruct (join_among_ingests ws b n pre mid1 mid2 post Hok Hws Hnew
              Hpre Hmid1 Hmid2 Hpost) as (m & Hrun & Hin).
  exists pre, mid1, mid2, post, m.
  split; [done|]. split; [done|]. split; [exact Hrun|].
  intros snap live.
  assert (Hsnap : most_recent (maxBufferSize b)
                    (recentLines b ++ appended pre ++ appended mid1) = snap).
  { subst snap. unfold appended. by rewrite omap_app. }
  assert (Hlive : live = broadcast_lines mid1 ++ broadcast_lines mid2
                         ++ broadcast_lines post).
  { subst live. unfold broadcast_lines. by rewrite !omap_app. }
  rewrite Hsnap in Hin. rewrite Hin, Hlive. clear Hin Hrun.
  split; [|split; [|split; [|split; [|split]]]].
  - apply Permutation_app_head, fmap_Permutation.
    rewrite (app_assoc (broadcast_lines mid1) (broadcast_lines mid2) (snap ++ _)).
    rewrite (app_assoc (broadcast_lines mid1) (broadcast_lines mid2)
               (broadcast_lines post)).
    rewrite (app_assoc _ snap), (app_assoc snap).
    apply Permutation_app_tail, Permutation_app_comm.
  - by apply prefix_app_r.
  - apply sublist_inserts_l, fmap_sublist.
    do 2 apply sublist_inserts_l. by apply sublist_inserts_r.
  - apply sublist_inserts_l, fmap_sublist.
    apply sublist_app; [done|]. apply sublist_app; [done|].
    by apply sublist_inserts_l.
  - intros line Hone. rewrite <- Hlive.
    apply single_line_kept; [apply Hok|exact Hone].
  - intros -> ->. simpl. by rewrite !fmap_app.
Qed.

Lemma join_interleavings_witness :
  let b := mkOutputBuffer ["x1"] 2 ∅ in
  let ingest := [ActAppend "x2"; ActAppend "x3"; ActBroadcast "x3"; ActBroadcast "x2"] in
  let sched := [ActRegister 1%positive; ActAppend "x2"; ActAppend "x3";
                ActSnapshot 1%positive; ActBroadcast "x3"; ActReplay 1%positive;
                ActBroadcast "x2"] in
  window_ok b
  ∧ (1%positive ∉ broken sys0)
  ∧ clients b !! 1%positive = None
  ∧ Forall is_ingest_step ingest
  ∧ interleave (AddClient_steps 1%positive) ingest sched
  ∧ ∃ m, run sched (mkMachine b sys0 ∅) = Ok m.
Proof.
  intros b ingest sched.
  assert (H1 : window_ok b) by (unfold window_ok; simpl; lia).
  assert (H2 : 1%positive ∉ broken sys0) by (simpl; apply not_elem_of_empty).
  assert (H3 : clients b !! 1%positive = None) by reflexivity.
  assert (H4 : Forall is_ingest_step ingest) by (repeat constructor).
  assert (H5 : interleave (AddClient_steps 1%positive) ingest sched).
  { apply interleave_l, interleave_r, interleave_r, interleave_l, interleave_r,
      interleave_l, interleave_r, interleave_nil. }
  split; [exact H1|]. split; [exact H2|]. split; [exact H3|].
  split; [exact H4|]. split; [exact H5|].
  destruct (join_interleavings 1%positive b sys0 ingest sched H1 H2 H3 H4 H5)
    as (pre & mid1 & mid2 & post & m & _ & _ & Hrun & _).
  exists m. exact Hrun.
Defined.

(** C2, as stated, fails: the object sent for a line has the one field
    ["line"]; no source, text or sequence field, and no sequence number
    exists anywhere in the buffer. Here a viewer joins a buffer holding one
    line and one more line is ingested; neither message has a sequence. *)
Lemma no_sequence_field_counterexample :
  ∃ st, AddLine "[stdout] two" (AddClient 1%positive (mkOutputBuffer ["[stdout] one"] 2 ∅, sys0))
        = Ok st
        ∧ inbox_of st.2 1%positive
          = [line_message "[stdout] one"; line_message "[stdout] two"]
        ∧ ¬ (∀ m, m ∈ inbox_of st.2 1%positive →
                  is_Some (m !! "source") ∧ is_Some (m !! "text")
                  ∧ is_Some (m !! "sequence")).
Proof.
  destruct (AddLine_inbox "[stdout] two"
              (AddClient 1%positive (mkOutputBuffer ["[stdout] one"] 2 ∅, sys0)).1
              (AddClient 1%positive (mkOutputBuffer ["[stdout] one"] 2 ∅, sys0)).2
              1%positive)
    as (b' & n' & Hrun & _ & _ & _ & _ & _ & Hin).
  { unfold window_ok. simpl. lia. }
  exists (b', n'). split; [exact Hrun|].
  assert (Hbox : inbox_of n' 1%positive
                 = [line_message "[stdout] one"; line_message "[stdout] two"]).
  { rewrite Hin. rewrite AddClient_inbox. simpl.
    rewrite decide_True by (split; [done|apply not_elem_of_empty]).
    rewrite decide_True; [reflexivity|]. split.
    - rewrite lookup_insert_eq. eauto.
    - rewrite SendHistoryToClient_replay, replay_broken. apply not_elem_of_empty. }
  split; [exact Hbox|]. simpl. rewrite Hbox.
  intros H. destruct (H (line_message "[stdout] one")) as (_ & _ & [x Hx]).
  { apply elem_of_cons. by left. }
  pose proof (line_message_fields "[stdout] one") as (_ & _ & _ & _ & Hseq).
  rewrite Hseq in Hx. discriminate Hx.
Qed.

(** C2, amended. Every message that any step of the buffer puts into a
    viewer's inbox, replayed or live, is the one-field object [{"line": l}]
    for a line [l] that was in the window or is ingested: it has no field
    for a source, a text or a sequence number, and the buffer keeps no
    sequence number. Order is carried by the order of delivery alone, and
    only as far as the calls are ordered: when the join of a reachable
    viewer has returned and the lines are then ingested by one [AddLine]
    call after another, the viewer has the window of the moment of the join
    and then each of these lines, once, in the order of ingestion. For
    calls that overlap nothing of the kind is promised. *)
Theorem delivered_messages_are_lines :
  (∀ (sched : list action) (b : OutputBuffer) (n : sys) (m' : machine)
     (c : conn) (msg : message),
     run sched (mkMachine b n ∅) = Ok m' →
     msg ∈ inbox_of (env m') c →
     msg ∈ inbox_of n c
     ∨ ∃ l, msg = {[ "line" := l ]}
            ∧ l ∈ recentLines b ++ appended sched ++ broadcast_lines sched
            ∧ dom msg = ({["line"]} : gset string)
            ∧ msg !! "source" = None
            ∧ msg !! "text" = None
            ∧ msg !! "sequence" = None)
  ∧ (∀ (ws : conn) (b : OutputBuffer) (n : sys) (ls : list string),
       window_ok b →
       ws ∉ broken n →
       ∃ b' n', AddLines ls (AddClient ws (b, n)) = Ok (b', n')
                ∧ inbox_of n' ws
                  = inbox_of n ws ++ (line_message <$> (recentLines b ++ ls))).
Proof.
  split.
  - intros sched b n m' c msg Hrun Hin.
    assert (Hknown : known (recentLines b) (mkMachine b n ∅)).
    { split; [done|]. intros ws ls l Hls. simpl in Hls.
      by rewrite lookup_empty in Hls. }
    destruct (run_known sched _ m' _ c msg Hknown Hrun Hin)
      as [Hold|(l & -> & Hl)]; [by left|].
    right. exists l.
    pose proof (line_message_fields l) as (Hdom & _ & Hsrc & Htext & Hseq).
    split; [done|]. split; [|done].
    rewrite !elem_of_app. tauto.
  - intros ws b n ls Hok Hws.
    destruct (AddLines_inbox ls ws (AddClient ws (b, n)).1 (AddClient ws (b, n)).2)
      as (b' & n' & Hrun & _ & _ & _ & Hin); [exact Hok|].
    exists b', n'. split; [by destruct (AddClient ws (b, n))|].
    rewrite Hin, AddClient_inbox. rewrite decide_True by done.
    rewrite decide_True.
    + by rewrite fmap_app, app_assoc.
    + split.
      * unfold AddClient, AddClient_register. simpl. rewrite lookup_insert_eq. eauto.
      * unfold AddClient. simpl. by rewrite SendHistoryToClient_replay, replay_broken.
Qed.

Lemma delivered_messages_are_lines_witness :
  let b := mkOutputBuffer ["x1"] 2 ∅ in
  let sched := [ActRegister 1%positive; ActAppend "x2"; ActBroadcast "x2";
                ActSnapshot 1%positive; ActReplay 1%positive] in
  window_ok b
  ∧ (1%positive ∉ broken sys0)
  ∧ (∃ b' n', AddLines ["x2"] (AddClient 1%positive (b, sys0)) = Ok (b', n')
              ∧ inbox_of n' 1%positive
                = inbox_of sys0 1%positive ++ (line_message <$> (["x1"] ++ ["x2"])))
  ∧ ∃ m', run sched (mkMachine b sys0 ∅) = Ok m'
          ∧ line_message "x2" ∈ inbox_of (env m') 1%positive
          ∧ line_message "x2" !! "sequence" = None.
Proof.
  intros b sched.
  assert (H1 : window_ok b) by (unfold window_ok; simpl; lia).
  assert (H2 : (1%positive) ∉ broken sys0) by (simpl; apply not_elem_of_empty).
  split; [exact H1|]. split; [exact H2|].
  destruct delivered_messages_are_lines as [Hshape Hseq].
  split.
  - destruct (Hseq 1%positive b sys0 ["x2"] H1 H2) as (b' & n' & Hrun & Hin).
    exists b', n'. split; [exact Hrun|exact Hin].
  - destruct (run_view 1%positive sched (mkMachine b sys0 ∅) H1 H2)
      as (m' & Hrun & Hview).
    exists m'. split; [exact Hrun|].
    assert (Hin : line_message "x2" ∈ inbox_of (env m') 1%positive).
    { rewrite view_of_new in Hview by reflexivity.
      apply (f_equal v_inbox) in Hview. cbn in Hview.
      change (v_inbox (view_of 1%positive m')) with (inbox_of (env m') 1%positive)
        in Hview.
      rewrite Hview. apply list_elem_of_here. }
    split; [exact Hin|].
    destruct (Hshape sched b sys0 m' 1%positive _ Hrun Hin)
      as [Hold|(l & _ & _ & _ & _ & _ & Hno)].
    + by apply elem_of_nil in Hold.
    + exact Hno.
Defined.

(** C3. Eviction. On a buffer that [NewOutputBuffer] has made with a
    capacity of at least one the window behaves as the claim says
    ([eviction_positive_capacity]); at capacity 0 it does not:
    with K = 1 the claim has [GetLines] return the most recent 0 lines, the
    empty list, but the one append panics, on [recentLines[1:]] of an empty
    slice, and there is no buffer left to read. *)
Theorem eviction_fails_at_capacity_0 :
  (b ← NewOutputBuffer 0; AddLines ["a"] (b, sys0))
  = Panic "slice bounds out of range [1:0]"
  ∧ most_recent 0 ["a"] = [].
Proof. split; reflexivity. Qed.

(** C4. [AddLine] on a buffer of capacity 0. The buffer is constructed, and
    every append to it panics: the window is empty, its length 0 is not
    below the capacity 0, and the branch that drops the oldest line slices
    [recentLines[1:]]. *)
Theorem AddLine_panics_at_capacity_0 (line : string) (n : sys) :
  ∃ b0, NewOutputBuffer 0 = Ok b0
        ∧ recentLines b0 = []
        ∧ AddLine line (b0, n) = Panic "slice bounds out of range [1:0]".
Proof. eexists. split; [reflexivity|]. split; reflexivity. Qed.



(** C6. Idempotent registration. [AddClient] for a client that is already
    registered leaves the registry as it was, with the client's one entry;
    each later line is then delivered to the client once. [RemoveClient]
    for a client that is not registered changes nothing. *)
Theorem registration_idempotent (ws absent : conn) (b : OutputBuffer) (n : sys)
    (ls : list string) :
  window_ok b →
  ws ∉ broken n →
  clients b !! absent = None →
  let st1 := AddClient ws (b, n) in
  let st2 := AddClient ws st1 in
  clients st2.1 = clients st1.1
  ∧ clients st2.1 !! ws = Some true
  ∧ size (clients st2.1) = size (clients st1.1)
  ∧ (∃ b3 n3, AddLines ls st2 = Ok (b3, n3)
              ∧ inbox_of n3 ws = inbox_of st2.2 ws ++ (line_message <$> ls)
              ∧ clients b3 = clients st1.1)
  ∧ RemoveClient absent (b, n) = (b, n).
Proof.
  intros Hok Hws Habs st1 st2. subst st1 st2.
  unfold AddClient, AddClient_register. simpl.
  split; [apply insert_insert_eq|].
  split; [apply lookup_insert_eq|].
  split; [by rewrite insert_insert_eq|].
  split.
  - set (b2 := with_clients _ _). set (n2 := SendHistoryToClient _ _ _).
    assert (Hok2 : window_ok b2) by exact Hok.
    destruct (AddLines_inbox ls ws b2 n2 Hok2) as (b3 & n3 & Hrun & _ & Hcl & _ & Hin).
    exists b3, n3. split; [exact Hrun|]. split.
    + rewrite Hin. rewrite decide_True; [done|]. split.
      * subst b2. simpl. rewrite lookup_insert_eq. eauto.
      * subst n2. rewrite !SendHistoryToClient_replay, !replay_broken. exact Hws.
    + rewrite Hcl. subst b2. simpl. apply insert_insert_eq.
  - unfold RemoveClient. simpl. rewrite delete_id by done. by destruct b.
Qed.

Lemma registration_idempotent_witness :
  let b := mkOutputBuffer ["x1"] 2 ∅ in
  window_ok b
  ∧ (1%positive ∉ broken sys0)
  ∧ clients b !! 7%positive = None
  ∧ RemoveClient 7%positive (b, sys0) = (b, sys0)
  ∧ clients (AddClient 1%positive (AddClient 1%positive (b, sys0))).1
    = clients (AddClient 1%positive (b, sys0)).1.
Proof.
  intros b.
  assert (H1 : window_ok b) by (unfold window_ok; simpl; lia).
  assert (H2 : 1%positive ∉ broken sys0) by (simpl; apply not_elem_of_empty).
  assert (H3 : clients b !! 7%positive = None) by reflexivity.
  split; [exact H1|]. split; [exact H2|]. split; [exact H3|].
  pose proof (registration_idempotent 1%positive 7%positive b sys0 ["x2"] H1 H2 H3) as H.
  simpl in H. destruct H as (Ha & _ & _ & _ & Hb). split; [exact Hb|exact Ha].
Defined.

(** C7, as stated, fails: the line [ProcessStream] adds for a scanner error
    carries the label [[ERROR]], not the [[SYSTEM]] label of the system
    lines, and the viewer does not give it the [system] class. *)
Lemma scanner_error_not_system_counterexample :
  ProcessStream_lines (mkReader EmptyString (ReadError "read |0: file already closed")) "stderr"
  = ["[ERROR] Scanner error: read |0: file already closed"]
  ∧ class_of "[ERROR] Scanner error: read |0: file already closed" ≠ Some system
  ∧ class_of (exit_line None) = Some system.
Proof. split; [reflexivity|]. split; [discriminate|reflexivity]. Qed.

(** C7, amended. When the reader ends with an error other than a clean end
    of input, [ProcessStream] adds the lines scanned so far and then exactly
    one more line, ["[ERROR] Scanner error: "] followed by the scanner's
    error, and returns; the error goes nowhere else. The scanner's error is
    the reader's, unless a line reached the scanner's limit first. The line
    gets no stream prefix and no [[SYSTEM]] label from the program, so the
    viewer classes it by the text of the error alone. *)
Theorem read_error_is_reported (data e prefix : string) (b : OutputBuffer) (n : sys) :
  window_ok b →
  let r := mkReader data (ReadError e) in
  ∃ toks e' b' n',
    Scan r = (toks, Some e')
    ∧ (e' = e ∨ e' = ErrTooLong)
    ∧ ((longest_line data < MaxScanTokenSize)%N → e' = e)
    ∧ ProcessStream_lines r prefix
      = (tag_line prefix <$> toks) ++ ["[ERROR] Scanner error: " +:+ e']
    ∧ ProcessStream r prefix (b, n) = Ok (b', n')
    ∧ last (recentLines b') = Some ("[ERROR] Scanner error: " +:+ e')
    ∧ class_of ("[ERROR] Scanner error: " +:+ e') = class_of e'.
Proof.
  intros Hok r.
  destruct (Scan_loop_read_error data e [] 0%N) as (toks & e' & Hscan & He).
  assert (Hlines : ProcessStream_lines r prefix
                   = (tag_line prefix <$> toks) ++ ["[ERROR] Scanner error: " +:+ e']).
  { unfold ProcessStream_lines, Scan. subst r. simpl. by rewrite Hscan. }
  destruct (ProcessStream_runs r prefix b n 1%positive Hok) as (b' & n' & Hrun & Hrec & _).
  exists toks, e', b', n'.
  split; [exact Hscan|]. split; [exact He|]. split; [|split; [exact Hlines|split; [exact Hrun|]]].
  - intros Hshort.
    destruct (Scan_loop_lines data (ReadError e) [] 0%N) as (raws & Hscan' & _);
      [done|exact Hshort|].
    rewrite Hscan' in Hscan. simpl in Hscan. congruence.
  - split.
    + rewrite Hrec, Hlines. unfold most_recent.
      rewrite app_assoc. set (pre := recentLines b ++ _).
      destruct Hok as [Hpos _].
      rewrite length_app. simpl.
      rewrite drop_app_le by lia.
      rewrite last_app. simpl. done.
    + unfold class_of.
      assert (H1 : includes "[stdout]" ("[ERROR] Scanner error: " +:+ e')
                   = includes "[stdout]" e') by reflexivity.
      assert (H2 : includes "[stderr]" ("[ERROR] Scanner error: " +:+ e')
                   = includes "[stderr]" e') by reflexivity.
      assert (H3 : includes "[SYSTEM]" ("[ERROR] Scanner error: " +:+ e')
                   = includes "[SYSTEM]" e') by reflexivity.
      by rewrite H1, H2, H3.
Qed.

Lemma read_error_is_reported_witness :
  let b := mkOutputBuffer [] 3 ∅ in
  window_ok b
  ∧ ∃ b' n', ProcessStream (mkReader "partial" (ReadError "read |0: file already closed"))
               "stdout" (b, sys0) = Ok (b', n').
Proof.
  intros b.
  assert (H : window_ok b) by (unfold window_ok; simpl; lia).
  split; [exact H|].
  destruct (read_error_is_reported "partial" "read |0: file already closed" "stdout" b sys0 H)
    as (toks & e' & b' & n' & _ & _ & _ & _ & Hrun & _).
  exists b', n'. exact Hrun.
Defined.

(** C8, as stated, fails: an input of 65536 bytes without a line feed has
    one line, the partial line, and the scanner yields no token at all and
    stops with [ErrTooLong]. *)
Lemma line_framing_counterexample :
  Scan (mkReader (repeat_char "a" 65536) EOF) = ([], Some ErrTooLong)
  ∧ ProcessStream_lines (mkReader (repeat_char "a" 65536) EOF) "stdout"
    = ["[ERROR] Scanner error: bufio.Scanner: token too long"]
  ∧ join_lines [repeat_char "a" 65536] = terminated (repeat_char "a" 65536).
Proof.
  split; [vm_compute; reflexivity|]. split; [vm_compute; reflexivity|].
  apply (bool_decide_unpack _). vm_compute. exact I.
Qed.

(** C8, amended. For every input that ends cleanly and in which every run
    of bytes between line feeds, a carriage return at its end counted, is
    shorter than 65536 bytes, the framer yields one line for each run, in
    order: the runs, each followed by a line feed, make up the input (with
    the line feed that a final partial run lacks), and no run holds a line
    feed. Each run is passed on without the line feed and without one
    carriage return at its end, the final partial run too, and
    [ProcessStream] adds each with its prefix. The empty input yields no
    line, and there is no error line. *)
Theorem line_framing (data prefix : string) :
  (longest_line data < MaxScanTokenSize)%N →
  ∃ raws,
    Forall no_newline raws
    ∧ join_lines raws = terminated data
    ∧ Scan (mkReader data EOF) = (dropCR <$> raws, None)
    ∧ ProcessStream_lines (mkReader data EOF) prefix
      = (tag_line prefix <$> (dropCR <$> raws))
    ∧ (data = EmptyString → raws = []).
Proof.
  intros Hshort.
  destruct (Scan_loop_lines data EOF [] 0%N) as (raws & Hscan & Hnl & Hjoin);
    [done|exact Hshort|].
  exists raws. split; [exact Hnl|]. split; [exact Hjoin|].
  split; [exact Hscan|]. split.
  - unfold ProcessStream_lines, Scan. simpl. rewrite Hscan. simpl.
    by rewrite app_nil_r.
  - intros ->. destruct raws as [|l raws]; [done|].
    simpl in Hjoin. destruct l; discriminate Hjoin.
Qed.

Lemma line_framing_witness :
  (longest_line ("ab" +:+ LF +:+ "cd") < MaxScanTokenSize)%N
  ∧ ∃ raws, join_lines raws = terminated ("ab" +:+ LF +:+ "cd")
            ∧ ProcessStream_lines (mkReader ("ab" +:+ LF +:+ "cd") EOF) "stdout"
              = (tag_line "stdout" <$> (dropCR <$> raws)).
Proof.
  assert (H : (longest_line ("ab" +:+ LF +:+ "cd") < MaxScanTokenSize)%N)
    by (vm_compute; reflexivity).
  split; [exact H|].
  destruct (line_framing ("ab" +:+ LF +:+ "cd") "stdout" H)
    as (raws & _ & Hjoin & _ & Hlines & _).
  exists raws. split; [exact Hjoin|exact Hlines].
Defined.

(** C9, as stated, fails in its second half. The scanner has a limit, 65536
    bytes; a line that reaches it is not passed on in part, and the stop is
    not silent, but the line that reports it is labelled [[ERROR]]; the
    viewer does not give it the [system] class. *)
Lemma long_line_not_system_counterexample :
  ProcessStream_lines
    (mkReader ("ok" +:+ LF +:+ repeat_char "x" 70000 +:+ LF +:+ "tail" +:+ LF) EOF)
    "stdout"
  = ["[stdout] ok"; "[ERROR] Scanner error: bufio.Scanner: token too long"]
  ∧ class_of "[ERROR] Scanner error: bufio.Scanner: token too long" ≠ Some system.
Proof. split; [vm_compute; reflexivity|discriminate]. Qed.

(** C9, amended. A line of 65536 bytes or more is never passed on cut
    short: after the lines before it, [ProcessStream] adds the one line
    ["[ERROR] Scanner error: bufio.Scanner: token too long"] and nothing
    else, and every registered client whose transport works receives that
    line as the last of the run. *)
Theorem long_line_is_reported (raws : list string) (long rest prefix : string)
    (fin : read_end) (b : OutputBuffer) (n : sys) (ws : conn) :
  Forall (λ l, no_newline l ∧ (N.of_nat (String.length l) < MaxScanTokenSize)%N) raws →
  no_newline long →
  (MaxScanTokenSize ≤ N.of_nat (String.length long))%N →
  window_ok b →
  is_Some (clients b !! ws) →
  ws ∉ broken n →
  let r := mkReader (join_lines raws +:+ long +:+ rest) fin in
  ProcessStream_lines r prefix
  = (tag_line prefix <$> (dropCR <$> raws))
    ++ ["[ERROR] Scanner error: bufio.Scanner: token too long"]
  ∧ ∃ b' n', ProcessStream r prefix (b, n) = Ok (b', n')
             ∧ inbox_of n' ws
               = inbox_of n ws
                 ++ (line_message <$> (tag_line prefix <$> (dropCR <$> raws)))
                 ++ [line_message "[ERROR] Scanner error: bufio.Scanner: token too long"].
Proof.
  intros Hraws Hnl Hlen Hok Hreg Hws r.
  assert (Hlines : ProcessStream_lines r prefix
                   = (tag_line prefix <$> (dropCR <$> raws))
                     ++ ["[ERROR] Scanner error: bufio.Scanner: token too long"]).
  { unfold ProcessStream_lines, Scan. subst r. simpl.
    rewrite Scan_loop_short_lines by exact Hraws.
    rewrite Scan_loop_too_long; [|exact Hnl|].
    - simpl. by rewrite app_nil_r.
    - split; [done|]. lia. }
  split; [exact Hlines|].
  destruct (ProcessStream_runs r prefix b n ws Hok) as (b' & n' & Hrun & _ & Hin).
  exists b', n'. split; [exact Hrun|].
  rewrite Hin, decide_True by done. rewrite Hlines. by rewrite fmap_app.
Qed.

Lemma long_line_is_reported_witness :
  let b := mkOutputBuffer [] 3 {[1%positive := true]} in
  let long := repeat_char "x" 65536 in
  Forall (λ l, no_newline l ∧ (N.of_nat (String.length l) < MaxScanTokenSize)%N) ["ok"]
  ∧ no_newline long
  ∧ (MaxScanTokenSize ≤ N.of_nat (String.length long))%N
  ∧ window_ok b
  ∧ is_Some (clients b !! 1%positive)
  ∧ (1%positive ∉ broken sys0)
  ∧ ProcessStream_lines (mkReader (join_lines ["ok"] +:+ long +:+ LF) EOF) "stdout"
    = (tag_line "stdout" <$> (dropCR <$> ["ok"]))
      ++ ["[ERROR] Scanner error: bufio.Scanner: token too long"].
Proof.
  intros b long.
  assert (H1 : Forall (λ l, no_newline l
                            ∧ (N.of_nat (String.length l) < MaxScanTokenSize)%N) ["ok"]).
  { apply Forall_singleton. split.
    - unfold no_newline. simpl. repeat constructor; discriminate.
    - vm_compute. reflexivity. }
  assert (H2 : no_newline long).
  { apply no_newline_repeat_char. discriminate. }
  assert (H3 : (MaxScanTokenSize ≤ N.of_nat (String.length long))%N).
  { unfold long. rewrite length_repeat_char. vm_compute. discriminate. }
  assert (H4 : window_ok b) by (unfold window_ok; simpl; lia).
  assert (H5 : is_Some (clients b !! 1%positive)).
  { exists true. reflexivity. }
  assert (H6 : 1%positive ∉ broken sys0) by (simpl; apply not_elem_of_empty).
  split; [exact H1|]. split; [exact H2|]. split; [exact H3|].
  split; [exact H4|]. split; [exact H5|]. split; [exact H6|].
  apply (long_line_is_reported ["ok"] long LF "stdout" EOF b sys0 1%positive
           H1 H2 H3 H4 H5 H6).
Defined.

(** C10. A command that is empty or all white space: [ExecuteCommand]
    returns the error ["empty command"] and leaves the buffer and its
    environment as they were: no line added, nothing sent, no process
    started. *)
Theorem empty_command_is_rejected (exec : string → list string → Cmd)
    (picks : list nat) (command : string) (st : OutputBuffer * sys) :
  only_white_space command →
  ExecuteCommand exec picks command st = Ok (st, Some "empty command").
Proof.
  intros Hws. unfold ExecuteCommand.
  apply Fields_nil_iff in Hws. by rewrite Hws.
Qed.

Lemma empty_command_is_rejected_witness :
  let exec := λ (_ : string) (_ : list string),
    mkCmd None None None (mkReader "out" EOF) (mkReader EmptyString EOF) None in
  let st := (mkOutputBuffer ["x1"] 2 ∅, sys0) in
  only_white_space "   "
  ∧ ExecuteCommand exec [0%nat; 1%nat] "   " st = Ok (st, Some "empty command").
Proof.
  intros exec st.
  assert (H : only_white_space "   ") by (vm_compute; reflexivity).
  split; [exact H|]. apply (empty_command_is_rejected exec [0%nat; 1%nat] "   " st H).
Defined.

(** * Further properties of the buffer *)

Section Schedules.

Lemma step_window (a : action) (m : machine) :
  window_ok (ob m) →
  ∃ m', step a m = Ok m'
        ∧ window_ok (ob m')
        ∧ maxBufferSize (ob m') = maxBufferSize (ob m)
        ∧ recentLines (ob m')
          = most_recent (maxBufferSize (ob m)) (recentLines (ob m) ++ appended [a]).
Proof.
  intros Hok. destruct m as [b n sn]. simpl in *.
  destruct a as [line|line|c|c|c|c]; simpl.
  1: { destruct (AddLine_append_window b line Hok) as (b1 & Happ & Hrec & Hcap & _ & Hok1).
       rewrite Happ. simpl. eexists. split; [reflexivity|]. done. }
  all: eexists; (split; [reflexivity|]); simpl.
  all: rewrite app_nil_r, most_recent_id by apply Hok; done.
Qed.

Lemma appended_cons (a : action) (sched : list action) :
  appended (a :: sched) = appended [a] ++ appended sched.
Proof. by destruct a. Qed.

(** Any order of steps on a buffer of positive capacity: the window after
    them is the most recent part of the old window and the appended lines. *)
Lemma run_window (sched : list action) :
  ∀ m, window_ok (ob m) →
       ∃ m', run sched m = Ok m'
             ∧ window_ok (ob m')
             ∧ maxBufferSize (ob m') = maxBufferSize (ob m)
             ∧ recentLines (ob m')
               = most_recent (maxBufferSize (ob m))
                   (recentLines (ob m) ++ appended sched).
Proof.
  induction sched as [|a sched IH]; intros m Hok.
  - exists m. simpl. rewrite app_nil_r, most_recent_id by apply Hok. done.
  - destruct (step_window a m Hok) as (m1 & Hstep & Hok1 & Hcap1 & Hrec1).
    destruct (IH m1 Hok1) as (m' & Hrun & Hok' & Hcap' & Hrec').
    exists m'. split; [simpl; rewrite Hstep; exact Hrun|].
    split; [exact Hok'|]. split; [congruence|].
    rewrite Hrec', Hrec1, Hcap1.
    rewrite (appended_cons a sched). apply most_recent_step_app.
Qed.

Lemma appended_AddLine_steps (ls : list string) :
  appended (concat (map AddLine_steps ls)) = ls.
Proof. induction ls as [|l ls IH]; simpl; [done|]. unfold appended in *. simpl. by rewrite IH. Qed.

Lemma sublist_concat_lookup {A} (ls : list (list A)) (i : nat) (t : list A) :
  ls !! i = Some t → t `sublist_of` concat ls.
Proof.
  revert i. induction ls as [|l ls IH]; intros i Hi; [done|].
  destruct i as [|i]; simpl in *.
  - injection Hi as ->. by apply sublist_inserts_r.
  - apply sublist_inserts_l. by apply (IH i).
Qed.

Lemma prefix_omap {A B} (f : A → option B) (l1 l2 : list A) :
  l1 `prefix_of` l2 → omap f l1 `prefix_of` omap f l2.
Proof. intros [k ->]. rewrite omap_app. by apply prefix_app_r. Qed.

(** What has run when the caller returns: all of the caller's steps and an
    initial part of each goroutine's steps, every one once, each party's
    steps in its own order. *)
Lemma steps_until_return_spec (picks : list nat) :
  ∀ out err caller : list action,
    ∃ out1 err1,
      out1 `prefix_of` out
      ∧ err1 `prefix_of` err
      ∧ steps_until_return picks out err caller ≡ₚ out1 ++ err1 ++ caller
      ∧ out1 `sublist_of` steps_until_return picks out err caller
      ∧ err1 `sublist_of` steps_until_return picks out err caller
      ∧ caller `sublist_of` steps_until_return picks out err caller.
Proof.
  induction picks as [|p picks IH]; intros out err caller.
  { exists [], []. simpl.
    split; [apply prefix_nil|]. split; [apply prefix_nil|]. split; [done|].
    split; [apply sublist_nil_l|]. split; [apply sublist_nil_l|done]. }
  destruct caller as [|c caller].
  { exists [], []. simpl.
    split; [apply prefix_nil|]. split; [apply prefix_nil|]. split; [done|].
    split; [apply sublist_nil_l|]. split; [apply sublist_nil_l|done]. }
  assert (Hpass : ∃ out1 err1,
             out1 `prefix_of` out ∧ err1 `prefix_of` err
             ∧ steps_until_return picks out err (c :: caller) ≡ₚ out1 ++ err1 ++ c :: caller
             ∧ out1 `sublist_of` steps_until_return picks out err (c :: caller)
             ∧ err1 `sublist_of` steps_until_return picks out err (c :: caller)
             ∧ c :: caller `sublist_of` steps_until_return picks out err (c :: caller))
    by apply IH.
  destruct p as [|[|[|p]]].
  - destruct out as [|a out']; [destruct err; exact Hpass|].
    destruct (IH out' err (c :: caller)) as (out1 & err1 & Ho & He & Hp & Hso & Hse & Hsc).
    exists (a :: out1), err1.
    assert (Heq : steps_until_return (0%nat :: picks) (a :: out') err (c :: caller)
                  = a :: steps_until_return picks out' err (c :: caller))
      by (by destruct err).
    rewrite Heq. split; [by apply prefix_cons|]. split; [done|].
    split; [simpl; by rewrite Hp|].
    split; [by apply sublist_skip|]. split; by apply sublist_cons.
  - destruct err as [|a err']; [destruct out; exact Hpass|].
    destruct (IH out err' (c :: caller)) as (out1 & err1 & Ho & He & Hp & Hso & Hse & Hsc).
    exists out1, (a :: err1).
    assert (Heq : steps_until_return (1%nat :: picks) out (a :: err') (c :: caller)
                  = a :: steps_until_return picks out err' (c :: caller))
      by (by destruct out).
    rewrite Heq. split; [done|]. split; [by apply prefix_cons|].
    split; [rewrite Hp; apply Permutation_middle|].
    split; [by apply sublist_cons|]. split; [by apply sublist_skip|by apply sublist_cons].
  - destruct (IH out err caller) as (out1 & err1 & Ho & He & Hp & Hso & Hse & Hsc).
    exists out1, err1.
    assert (Heq : steps_until_return (2%nat :: picks) out err (c :: caller)
                  = c :: steps_until_return picks out err caller)
      by (destruct out, err; reflexivity).
    rewrite Heq. split; [done|]. split; [done|].
    split.
    { rewrite Hp. rewrite (app_assoc out1 err1 (c :: caller)), (app_assoc out1 err1 caller).
      apply Permutation_middle. }
    split; [by apply sublist_cons|]. split; [by apply sublist_cons|by apply sublist_skip].
  - assert (Heq : steps_until_return (S (S (S p)) :: picks) out err (c :: caller)
                  = steps_until_return picks out err (c :: caller))
      by (destruct out, err; reflexivity).
    rewrite Heq. exact Hpass.
Qed.

End Schedules.

Section Environment.

Lemma Send_rest (c : conn) (m : message) (n : sys) :
  errlog (Send c m n).1 = errlog n ∧ spawned (Send c m n).1 = spawned n.
Proof. unfold Send. by case_decide. Qed.

Lemma Send_to_broken (c : conn) (m : message) (n : sys) :
  c ∈ broken n → (Send c m n).1 = n.
Proof. intros Hb. unfold Send. by rewrite decide_True. Qed.

Lemma replay_rest (ws : conn) (lines : list string) :
  ∀ n, errlog (replay ws lines n) = errlog n
       ∧ spawned (replay ws lines n) = spawned n.
Proof.
  induction lines as [|l lines IH]; intros n; [done|].
  unfold replay in *. simpl.
  destruct (IH (Send ws (line_message l) n).1) as [-> ->]. apply Send_rest.
Qed.

Lemma replay_to_broken (ws : conn) (lines : list string) (n : sys) :
  ws ∈ broken n → replay ws lines n = n.
Proof.
  intros Hb. induction lines as [|l lines IH]; [done|].
  unfold replay in *. simpl. by rewrite Send_to_broken.
Qed.

Lemma Broadcast_one_spawned (line : string) (n : sys) (e : conn * bool) :
  spawned (Broadcast_one line n e) = spawned n.
Proof. unfold Broadcast_one, Send. by case_decide. Qed.

Lemma Broadcast_spawned (b : OutputBuffer) (line : string) (n : sys) :
  spawned (Broadcast b line n) = spawned n.
Proof.
  unfold Broadcast. generalize (map_to_list (clients b)). intros l. revert n.
  induction l as [|e l IH]; intros n; simpl; [done|].
  by rewrite IH, Broadcast_one_spawned.
Qed.

Lemma Broadcast_no_clients (b : OutputBuffer) (line : string) (n : sys) :
  clients b = ∅ → Broadcast b line n = n.
Proof. intros Hcl. unfold Broadcast. by rewrite Hcl, map_to_list_empty. Qed.

Lemma step_spawned (a : action) (m m' : machine) :
  step a m = Ok m' → spawned (env m') = spawned (env m).
Proof.
  destruct a as [line|line|c|c|c|c]; simpl; intros Hstep.
  - destruct (AddLine_append (ob m) line); simpl in Hstep; [|discriminate].
    by injection Hstep as <-.
  - injection Hstep as <-. simpl. apply Broadcast_spawned.
  - by injection Hstep as <-.
  - by injection Hstep as <-.
  - injection Hstep as <-. simpl. apply replay_rest.
  - by injection Hstep as <-.
Qed.

Lemma run_spawned (sched : list action) :
  ∀ m m', run sched m = Ok m' → spawned (env m') = spawned (env m).
Proof.
  induction sched as [|a sched IH]; intros m m' Hrun; simpl in Hrun.
  - by injection Hrun as <-.
  - destruct (step a m) as [m1|] eqn:Hstep; simpl in Hrun; [|discriminate].
    rewrite (IH _ _ Hrun). by apply (step_spawned a).
Qed.

Lemma sublist_omap {A B} (f : A → option B) (l1 l2 : list A) :
  l1 `sublist_of` l2 → omap f l1 `sublist_of` omap f l2.
Proof.
  induction 1 as [|x l1 l2 H IH|x l1 l2 H IH]; simpl.
  - constructor.
  - destruct (f x); [by apply sublist_skip|done].
  - destruct (f x); [by apply sublist_cons|done].
Qed.

End Environment.

Section ScannerFacts.

Lemma dropCR_cases (s : string) : s = dropCR s ∨ s = dropCR s +:+ CR.
Proof.
  induction s as [|c s IH]; [by left|].
  simpl. destruct s as [|c' s'].
  - destruct (Ascii.eqb_spec c carriage_return) as [->|_]; [by right|by left].
  - destruct IH as [IH|IH]; [left|right].
    + by rewrite <- IH.
    + rewrite append_cons. by rewrite <- IH.
Qed.

Lemma dropCR_snoc (l : string) : dropCR (l +:+ CR) = l.
Proof.
  induction l as [|c l IH]; [done|].
  rewrite append_cons. simpl. rewrite IH.
  destruct (l +:+ CR) eqn:E; [|done].
  destruct l; rewrite ?append_cons, ?append_nil_l in E; discriminate E.
Qed.

Lemma length_append (a b : string) :
  String.length (a +:+ b) = (String.length a + String.length b)%nat.
Proof. induction a as [|c a IH]; [done|]. rewrite append_cons. simpl. by rewrite IH. Qed.

Lemma no_newline_app (a b : string) :
  no_newline (a +:+ b) ↔ no_newline a ∧ no_newline b.
Proof.
  unfold no_newline. induction a as [|c a IH].
  - rewrite append_nil_l. simpl. split; [by split|by intros [_ ?]].
  - rewrite append_cons. simpl. rewrite !Forall_cons, IH. tauto.
Qed.

Lemma dropCR_bounds (s : string) :
  (String.length (dropCR s) ≤ String.length s)%nat
  ∧ (no_newline s → no_newline (dropCR s)).
Proof.
  destruct (dropCR_cases s) as [H|H].
  - rewrite <- H. done.
  - split.
    + rewrite H at 2. rewrite length_append. lia.
    + intros Hnl. rewrite H in Hnl. by apply no_newline_app in Hnl as [? _].
Qed.

Lemma length_string_of_list_ascii (l : list ascii) :
  String.length (string_of_list_ascii l) = length l.
Proof. induction l as [|c l IH]; simpl; [done|by rewrite IH]. Qed.

Lemma token_of_bounds (held : list ascii) :
  Forall (λ c, c ≠ newline) held →
  no_newline (token_of held)
  ∧ (String.length (token_of held) ≤ length held)%nat.
Proof.
  intros Hheld. unfold token_of.
  destruct (dropCR_bounds (string_of_list_ascii (reverse held))) as [Hlen Hnl].
  split.
  - apply Hnl. by apply no_newline_held.
  - by rewrite length_string_of_list_ascii, length_reverse in Hlen.
Qed.

Lemma Scan_loop_tokens (data : string) (fin : read_end) :
  ∀ (held : list ascii) (k : N),
    Forall (λ c, c ≠ newline) held →
    k = N.of_nat (length held) →
    (k < MaxScanTokenSize)%N →
    Forall (λ t, no_newline t ∧ (N.of_nat (String.length t) < MaxScanTokenSize)%N)
           (Scan_loop data fin held k).1.
Proof.
  induction data as [|c data IH]; intros held k Hheld Hk Hlt.
  - simpl. destruct held as [|x held]; [by constructor|].
    apply Forall_singleton. destruct (token_of_bounds (x :: held) Hheld). split; [done|lia].
  - simpl. destruct (Ascii.eqb_spec c newline) as [->|Hc].
    + specialize (IH [] 0%N). destruct (Scan_loop data fin [] 0%N) as [toks e]. simpl.
      apply Forall_cons. split.
      * destruct (token_of_bounds held Hheld). split; [done|lia].
      * apply IH; [done|done|done].
    + destruct (N.leb_spec MaxScanTokenSize (N.succ k)) as [_|Hlt']; [by constructor|].
      apply IH; [by apply Forall_cons|simpl; lia|done].
Qed.

End ScannerFacts.

Section Viewer.

Lemma blank_command_refused (exec : string → list string → Cmd)
    (picks : list nat) (command : string) (st : OutputBuffer * sys) :
  only_white_space command →
  ExecuteCommand exec picks command st = Ok (st, Some "empty command").
Proof.
  intros Hws. unfold ExecuteCommand. apply Fields_nil_iff in Hws. by rewrite Hws.
Qed.

Lemma includes_prefix (needle hay : string) :
  String.prefix needle hay = true → includes needle hay = true.
Proof. intros H. destruct hay; cbn [includes]; by rewrite H. Qed.

Lemma includes_cons (needle : string) (c : ascii) (hay : string) :
  includes needle hay = true → includes needle (String c hay) = true.
Proof. intros H. cbn [includes]. rewrite H. apply orb_true_r. Qed.

End Viewer.

(** * Further properties *)

(** X1. On a buffer of positive capacity no step of [AddLine], [AddClient]
    or [RemoveClient] panics, in whatever order the callers' steps run. The
    capacity never changes; the window holds the most recent lines, oldest
    first: a suffix of the old window followed by the appended lines, of
    the capacity's length once that many lines are there. *)
Theorem steps_never_panic (sched : list action) (m : machine) :
  window_ok (ob m) →
  ∃ m', run sched m = Ok m'
        ∧ maxBufferSize (ob m') = maxBufferSize (ob m)
        ∧ GetLines (ob m') `suffix_of` (recentLines (ob m) ++ appended sched)
        ∧ length (GetLines (ob m'))
          = ((length (recentLines (ob m)) + length (appended sched))
               `min` Z.to_nat (maxBufferSize (ob m)))%nat.
Proof.
  intros Hok.
  destruct (run_window sched m Hok) as (m' & Hrun & _ & Hcap & Hrec).
  exists m'. split; [exact Hrun|]. split; [exact Hcap|].
  unfold GetLines. rewrite Hrec. unfold most_recent. split.
  - apply suffix_drop.
  - rewrite length_drop, length_app. lia.
Qed.

Lemma steps_never_panic_witness :
  let m := mkMachine (mkOutputBuffer ["a"; "b"] 2 ∅) sys0 ∅ in
  let sched := [ActRegister 1%positive; ActAppend "c"; ActSnapshot 1%positive;
                ActAppend "d"; ActBroadcast "d"; ActReplay 1%positive;
                ActBroadcast "c"; ActRemove 1%positive] in
  window_ok (ob m)
  ∧ ∃ m', run sched m = Ok m' ∧ length (GetLines (ob m')) = 2%nat.
Proof.
  intros m sched.
  assert (H : window_ok (ob m)) by (unfold window_ok; simpl; lia).
  split; [exact H|].
  destruct (steps_never_panic sched m H) as (m' & Hrun & _ & _ & Hlen).
  exists m'. split; [exact Hrun|exact Hlen].
Defined.

(** X2. A viewer that joins after lines were ingested into a newly made
    buffer of capacity at least one is sent exactly the most recent
    [capacity] of them, in order; while it was not registered it was sent
    nothing. *)
Theorem late_joiner_replay (capacity : Z) (b0 : OutputBuffer) (ls : list string)
    (ws : conn) (n : sys) :
  NewOutputBuffer capacity = Ok b0 →
  1 ≤ capacity →
  ws ∉ broken n →
  ∃ b' n', AddLines ls (b0, n) = Ok (b', n')
           ∧ inbox_of n' ws = inbox_of n ws
           ∧ inbox_of (AddClient ws (b', n')).2 ws
             = inbox_of n ws ++ (line_message <$> most_recent capacity ls).
Proof.
  intros Hnew Hcap Hws. apply NewOutputBuffer_Ok in Hnew as [-> _].
  set (b0 := mkOutputBuffer [] capacity ∅).
  assert (Hok : window_ok b0) by (split; simpl; lia).
  destruct (AddLines_window ls b0 n Hok) as (b' & n' & Hrun & Hrec & _).
  destruct (AddLines_inbox ls ws b0 n Hok) as (b2 & n2 & Hrun2 & _ & _ & Hbr & Hin).
  rewrite Hrun in Hrun2. injection Hrun2 as <- <-.
  exists b', n'. split; [exact Hrun|].
  rewrite decide_False in Hin; [|by intros [[x Hx] _]; simpl in Hx; rewrite lookup_empty in Hx].
  rewrite app_nil_r in Hin. split; [exact Hin|].
  rewrite AddClient_inbox, decide_True; [|by rewrite Hbr].
  by rewrite Hin, Hrec.
Qed.

Lemma late_joiner_replay_witness :
  let b0 := mkOutputBuffer [] 2 ∅ in
  NewOutputBuffer 2 = Ok b0
  ∧ 1 ≤ 2
  ∧ (1%positive ∉ broken sys0)
  ∧ ∃ b' n', AddLines ["a"; "b"; "c"] (b0, sys0) = Ok (b', n')
             ∧ inbox_of (AddClient 1%positive (b', n')).2 1%positive
               = inbox_of sys0 1%positive ++ (line_message <$> most_recent 2 ["a"; "b"; "c"]).
Proof.
  intros b0.
  assert (H0 : NewOutputBuffer 2 = Ok b0) by reflexivity.
  assert (H1 : 1 ≤ 2) by lia.
  assert (H2 : 1%positive ∉ broken sys0) by (simpl; apply not_elem_of_empty).
  split; [exact H0|]. split; [exact H1|]. split; [exact H2|].
  destruct (late_joiner_replay 2 b0 ["a"; "b"; "c"] 1%positive sys0 H0 H1 H2)
    as (b' & n' & Hrun & _ & Hin).
  exists b', n'. split; [exact Hrun|exact Hin].
Defined.

(** X3. Registering a viewer that was not registered and then removing it
    gives back the buffer as it was; the registration touches no other
    viewer's entry. *)
Theorem AddClient_RemoveClient (ws : conn) (b : OutputBuffer) (n : sys) :
  clients b !! ws = None →
  (RemoveClient ws (AddClient ws (b, n))).1 = b
  ∧ clients (AddClient ws (b, n)).1 !! ws = Some true
  ∧ ∀ c, c ≠ ws → clients (AddClient ws (b, n)).1 !! c = clients b !! c.
Proof.
  intros Hnew. unfold RemoveClient, AddClient, AddClient_register. simpl.
  split; [|split].
  - rewrite delete_insert_id by done. by destruct b.
  - apply lookup_insert_eq.
  - intros c Hc. by apply lookup_insert_ne.
Qed.

Lemma AddClient_RemoveClient_witness :
  let b := mkOutputBuffer ["x1"] 2 {[2%positive := true]} in
  clients b !! 1%positive = None
  ∧ (RemoveClient 1%positive (AddClient 1%positive (b, sys0))).1 = b.
Proof.
  intros b.
  assert (H : clients b !! 1%positive = None) by reflexivity.
  split; [exact H|]. apply (AddClient_RemoveClient 1%positive b sys0 H).
Defined.

(** X4. After [RemoveClient] a viewer is sent no further line, while every
    other registered viewer whose transport works still gets each line. *)
Theorem removed_client_gets_nothing (ws : conn) (b : OutputBuffer) (n : sys)
    (ls : list string) :
  window_ok b →
  ∃ b' n', AddLines ls (RemoveClient ws (b, n)) = Ok (b', n')
           ∧ inbox_of n' ws = inbox_of n ws
           ∧ ∀ c, c ≠ ws → is_Some (clients b !! c) → c ∉ broken n →
                  inbox_of n' c = inbox_of n c ++ (line_message <$> ls).
Proof.
  intros Hok. unfold RemoveClient. simpl.
  set (b1 := with_clients b (delete ws (clients b))).
  assert (Hok1 : window_ok b1) by exact Hok.
  destruct (AddLines_inbox ls ws b1 n Hok1) as (b' & n' & Hrun & _ & _ & _ & Hin).
  exists b', n'. split; [exact Hrun|]. split.
  - rewrite Hin, decide_False; [by rewrite app_nil_r|].
    intros [[x Hx] _]. simpl in Hx. by rewrite lookup_delete_eq in Hx.
  - intros c Hc Hreg Hbr.
    destruct (AddLines_inbox ls c b1 n Hok1) as (b2 & n2 & Hrun2 & _ & _ & _ & Hin2).
    rewrite Hrun in Hrun2. injection Hrun2 as <- <-.
    rewrite Hin2, decide_True; [done|]. split; [|done].
    simpl. by rewrite lookup_delete_ne.
Qed.

Lemma removed_client_gets_nothing_witness :
  let b := mkOutputBuffer [] 2 (<[2%positive := true]> {[1%positive := true]}) in
  window_ok b
  ∧ ∃ b' n', AddLines ["x"; "y"] (RemoveClient 1%positive (b, sys0)) = Ok (b', n')
             ∧ inbox_of n' 1%positive = inbox_of sys0 1%positive.
Proof.
  intros b.
  assert (H : window_ok b) by (unfold window_ok; simpl; lia).
  split; [exact H|].
  destruct (removed_client_gets_nothing 1%positive b sys0 ["x"; "y"] H)
    as (b' & n' & Hrun & Hin & _).
  exists b', n'. split; [exact Hrun|exact Hin].
Defined.

(** X5. With no viewer registered, ingestion changes the window only:
    nothing is sent, nothing is logged. *)
Theorem no_clients_no_effect (ls : list string) (b : OutputBuffer) (n : sys) :
  window_ok b →
  clients b = ∅ →
  ∃ b', AddLines ls (b, n) = Ok (b', n)
        ∧ GetLines b' = most_recent (maxBufferSize b) (recentLines b ++ ls).
Proof.
  revert b. induction ls as [|l ls IH]; intros b Hok Hcl.
  - exists b. split; [done|]. rewrite app_nil_r, most_recent_id by apply Hok. done.
  - destruct (AddLine_append_window b l Hok) as (b1 & Happ & Hrec & Hcap & Hcl1 & Hok1).
    destruct (IH b1 Hok1) as (b' & Hrun & Hget); [congruence|].
    exists b'. split.
    + simpl. unfold AddLine. simpl. rewrite Happ. simpl.
      rewrite Broadcast_no_clients by congruence. exact Hrun.
    + rewrite Hget, Hrec, Hcap. apply most_recent_step.
Qed.

Lemma no_clients_no_effect_witness :
  let b := mkOutputBuffer ["a"] 2 ∅ in
  window_ok b
  ∧ clients b = ∅
  ∧ ∃ b', AddLines ["b"; "c"] (b, sys0) = Ok (b', sys0).
Proof.
  intros b.
  assert (H1 : window_ok b) by (unfold window_ok; simpl; lia).
  assert (H2 : clients b = ∅) by reflexivity.
  split; [exact H1|]. split; [exact H2|].
  destruct (no_clients_no_effect ["b"; "c"] b sys0 H1 H2) as (b' & Hrun & _).
  exists b'. exact Hrun.
Defined.

(** X6. [AddClient] sends the history to the joining viewer only and never
    logs: a [Send] that fails there is dropped without a trace, so for a
    viewer whose transport has failed the environment is left untouched,
    and the viewer is registered all the same. *)
Theorem AddClient_is_quiet (ws : conn) (b : OutputBuffer) (n : sys) :
  let st := AddClient ws (b, n) in
  errlog st.2 = errlog n
  ∧ broken st.2 = broken n
  ∧ (∀ c, c ≠ ws → inbox_of st.2 c = inbox_of n c)
  ∧ (ws ∈ broken n → st.2 = n)
  ∧ clients st.1 !! ws = Some true
  ∧ GetLines st.1 = GetLines b.
Proof.
  unfold AddClient. simpl. rewrite SendHistoryToClient_replay.
  split; [apply replay_rest|]. split; [apply replay_broken|].
  split; [|split; [|split]].
  - intros c Hc. rewrite replay_inbox, decide_False; [by rewrite app_nil_r|].
    intros [Heq _]. by apply Hc.
  - apply replay_to_broken.
  - apply lookup_insert_eq.
  - done.
Qed.

(** X7. The order in which [Broadcast] ranges over the registry does not
    matter: for any order of the registered viewers, each viewer's inbox,
    the set of failed transports and the number of logged errors are the
    same. *)
Theorem Broadcast_order_irrelevant (b : OutputBuffer) (line : string) (n : sys)
    (order : list (conn * bool)) :
  order ≡ₚ map_to_list (clients b) →
  let n' := foldl (Broadcast_one line) n order in
  (∀ c, inbox_of n' c = inbox_of (Broadcast b line n) c)
  ∧ broken n' = broken (Broadcast b line n)
  ∧ length (errlog n') = length (errlog (Broadcast b line n)).
Proof.
  intros Hperm n'. subst n'. split; [|split].
  - intros c. unfold Broadcast. rewrite !fanout_inbox.
    + f_equal. apply decide_ext. by rewrite Hperm.
    + apply NoDup_fst_map_to_list.
    + rewrite Hperm. apply NoDup_fst_map_to_list.
  - unfold Broadcast. by rewrite !fanout_broken.
  - unfold Broadcast. rewrite !fanout_errlog. by rewrite Hperm.
Qed.

Lemma Broadcast_order_irrelevant_witness :
  let b := mkOutputBuffer [] 2 (<[2%positive := true]> {[1%positive := true]}) in
  let n := mkSys ∅ {[2%positive]} [] [] in
  reverse (map_to_list (clients b)) ≡ₚ map_to_list (clients b)
  ∧ ∀ c, inbox_of (foldl (Broadcast_one "x") n (reverse (map_to_list (clients b)))) c
         = inbox_of (Broadcast b "x" n) c.
Proof.
  intros b n.
  assert (H : reverse (map_to_list (clients b)) ≡ₚ map_to_list (clients b))
    by apply reverse_Permutation.
  split; [exact H|]. apply (Broadcast_order_irrelevant b "x" n _ H).
Defined.

(** X8. Whatever the reader yields and however it ends, no line that
    [ProcessStream] takes from the scanner holds a line feed, and each is
    shorter than 65536 bytes. *)
Theorem scanned_lines_are_bounded (r : Reader) :
  Forall (λ t, no_newline t ∧ (N.of_nat (String.length t) < MaxScanTokenSize)%N)
         (Scan r).1.
Proof. unfold Scan. by apply Scan_loop_tokens. Qed.

(** X9. Framing undoes joining: lines without a line feed, each shorter
    than 65536 bytes, written one per line, are read back by
    [ProcessStream] in order, each with the stream's prefix, without a
    carriage return that ended it, and with no error line. *)
Theorem ProcessStream_reads_back (raws : list string) (prefix : string) :
  Forall (λ l, no_newline l ∧ (N.of_nat (String.length l) < MaxScanTokenSize)%N) raws →
  ProcessStream_lines (mkReader (join_lines raws) EOF) prefix
  = (tag_line prefix <$> (dropCR <$> raws)).
Proof.
  intros Hraws. unfold ProcessStream_lines, Scan. simpl.
  rewrite <- (append_nil_r (join_lines raws)).
  rewrite Scan_loop_short_lines by exact Hraws. simpl.
  by rewrite !app_nil_r.
Qed.

Lemma ProcessStream_reads_back_witness :
  Forall (λ l, no_newline l ∧ (N.of_nat (String.length l) < MaxScanTokenSize)%N)
         ["make: done"]
  ∧ ProcessStream_lines (mkReader (join_lines ["make: done"]) EOF) "stdout"
    = (tag_line "stdout" <$> (dropCR <$> ["make: done"])).
Proof.
  assert (H : Forall (λ l, no_newline l
                           ∧ (N.of_nat (String.length l) < MaxScanTokenSize)%N)
                     ["make: done"]).
  { apply Forall_singleton. split.
    - unfold no_newline. simpl. repeat constructor; discriminate.
    - vm_compute. reflexivity. }
  split; [exact H|]. apply (ProcessStream_reads_back ["make: done"] "stdout" H).
Defined.

Lemma join_crlf_join_lines (raws : list string) :
  join_crlf raws = join_lines ((λ l, l +:+ CR) <$> raws).
Proof.
  induction raws as [|l raws IH]; [done|].
  simpl. by rewrite IH, !append_assoc.
Qed.

(** X10. Lines that end in carriage return and line feed come back without
    either: for lines without a line feed and shorter than 65535 bytes,
    [ProcessStream] reads the lines themselves back. *)
Theorem ProcessStream_reads_back_crlf (raws : list string) (prefix : string) :
  Forall (λ l, no_newline l ∧ (N.of_nat (String.length l) + 1 < MaxScanTokenSize)%N) raws →
  ProcessStream_lines (mkReader (join_crlf raws) EOF) prefix
  = (tag_line prefix <$> raws).
Proof.
  intros Hraws. rewrite join_crlf_join_lines.
  unfold ProcessStream_lines, Scan. simpl.
  rewrite <- (append_nil_r (join_lines _)).
  rewrite Scan_loop_short_lines.
  - simpl. rewrite !app_nil_r. f_equal. rewrite <- list_fmap_compose.
    rewrite <- (list_fmap_id raws) at 2. apply list_fmap_ext.
    intros i l _. simpl. apply dropCR_snoc.
  - apply Forall_fmap. eapply Forall_impl; [exact Hraws|].
    intros l [Hnl Hlen]. simpl. split.
    + apply no_newline_app. split; [done|].
      unfold no_newline. simpl. repeat constructor; discriminate.
    + rewrite length_append. simpl. lia.
Qed.

Lemma ProcessStream_reads_back_crlf_witness :
  Forall (λ l, no_newline l ∧ (N.of_nat (String.length l) + 1 < MaxScanTokenSize)%N)
         ["dir"]
  ∧ ProcessStream_lines (mkReader (join_crlf ["dir"]) EOF) "stdout"
    = (tag_line "stdout" <$> ["dir"]).
Proof.
  assert (H : Forall (λ l, no_newline l
                           ∧ (N.of_nat (String.length l) + 1 < MaxScanTokenSize)%N)
                     ["dir"]).
  { apply Forall_singleton. split.
    - unfold no_newline. simpl. repeat constructor; discriminate.
    - vm_compute. reflexivity. }
  split; [exact H|]. apply (ProcessStream_reads_back_crlf ["dir"] "stdout" H).
Defined.

(** X11. How the viewer classes the lines of the two streams: a line of
    standard output is always classed [stdout]; a line of standard error
    is classed [stderr] unless its text holds ["[stdout]"], in which case
    the viewer classes it [stdout]. *)
Theorem class_of_stream_lines (text : string) :
  class_of (tag_line "stdout" text) = Some stdout
  ∧ class_of (tag_line "stderr" text)
    = (if includes "[stdout]" text then Some stdout else Some stderr).
Proof.
  split.
  - unfold class_of. rewrite includes_prefix; [done|]. reflexivity.
  - unfold class_of.
    assert (H1 : includes "[stdout]" (tag_line "stderr" text) = includes "[stdout]" text)
      by reflexivity.
    assert (H2 : includes "[stderr]" (tag_line "stderr" text) = true)
      by (apply includes_prefix; reflexivity).
    by rewrite H1, H2.
Qed.

(** X12. How the viewer classes the lines the program itself adds. The
    class of the scanner's error line is that of the error text alone, so
    none when the text names no stream and no system tag; the exit line is
    classed [system] unless the error text of [Wait] holds a stream tag. *)
Theorem class_of_program_lines (e : string) :
  class_of (scanner_error_line e) = class_of e
  ∧ class_of (exit_line None) = Some system
  ∧ class_of (exit_line (Some e))
    = (if includes "[stdout]" e then Some stdout
       else if includes "[stderr]" e then Some stderr
       else Some system).
Proof.
  split; [|split].
  - unfold class_of.
    assert (H1 : includes "[stdout]" (scanner_error_line e) = includes "[stdout]" e)
      by reflexivity.
    assert (H2 : includes "[stderr]" (scanner_error_line e) = includes "[stderr]" e)
      by reflexivity.
    assert (H3 : includes "[SYSTEM]" (scanner_error_line e) = includes "[SYSTEM]" e)
      by reflexivity.
    by rewrite H1, H2, H3.
  - reflexivity.
  - unfold class_of.
    assert (H1 : includes "[stdout]" (exit_line (Some e)) = includes "[stdout]" e)
      by reflexivity.
    assert (H2 : includes "[stderr]" (exit_line (Some e)) = includes "[stderr]" e)
      by reflexivity.
    assert (H3 : includes "[SYSTEM]" (exit_line (Some e)) = true)
      by (apply includes_prefix; reflexivity).
    by rewrite H1, H2, H3.
Qed.

(** X13. [ExecuteCommand] adds no line and sends nothing unless it got as
    far as starting the command: when it returns without a call of
    [cmd.Start] on record, the buffer and its environment are as they were
    and the result is an error. *)
Theorem ExecuteCommand_without_start (exec : string → list string → Cmd)
    (picks : list nat) (command : string) (st st' : OutputBuffer * sys)
    (err : option string) :
  ExecuteCommand exec picks command st = Ok (st', err) →
  spawned st'.2 = spawned st.2 →
  st' = st ∧ is_Some err.
Proof.
  unfold ExecuteCommand. intros Hrun Hsp.
  assert (Hgrow : ∀ argv : list string, spawned st.2 ++ [argv] ≠ spawned st.2).
  { intros argv Heq. apply (f_equal length) in Heq. rewrite length_app in Heq.
    simpl in Heq. lia. }
  destruct (Fields command) as [|name args].
  { injection Hrun as <- <-. eauto. }
  destruct (StdoutPipe_err (exec name args)) as [e|].
  { injection Hrun as <- <-. eauto. }
  destruct (StderrPipe_err (exec name args)) as [e|].
  { injection Hrun as <- <-. eauto. }
  destruct (Start_err (exec name args)) as [e|].
  { injection Hrun as <- <-. simpl in Hsp. by apply Hgrow in Hsp. }
  destruct (run _ _) as [m|msg] eqn:Hm; simpl in Hrun; [|discriminate].
  injection Hrun as <- <-. simpl in Hsp.
  apply run_spawned in Hm. simpl in Hm. rewrite Hm in Hsp. by apply Hgrow in Hsp.
Qed.

Lemma ExecuteCommand_without_start_witness :
  let exec := λ (_ : string) (_ : list string),
    mkCmd (Some "too many open files") None None
          (mkReader "out" EOF) (mkReader EmptyString EOF) None in
  let st := (mkOutputBuffer ["x1"] 2 ∅, sys0) in
  ExecuteCommand exec [] "ls" st
  = Ok (st, Some "failed to create stdout pipe: too many open files")
  ∧ spawned st.2 = spawned st.2
  ∧ st = st.
Proof.
  intros exec st.
  assert (H1 : ExecuteCommand exec [] "ls" st
               = Ok (st, Some "failed to create stdout pipe: too many open files"))
    by reflexivity.
  assert (H2 : spawned st.2 = spawned st.2) by reflexivity.
  split; [exact H1|]. split; [exact H2|].
  apply (ExecuteCommand_without_start exec [] "ls" st st _ H1 H2).
Defined.

(** X14. Once the command is started, [ExecuteCommand] returns what [Wait]
    reports, without waiting for the two [ProcessStream] goroutines. When
    it returns, the exit line has been ingested, once, and of each stream
    an initial part of the lines its goroutine gets to read, in the order
    of the stream, each once, and nothing else; the rest of the stream's
    lines, possibly all of them, is not in the buffer yet. The window holds
    the most recent of what was ingested. *)
Theorem ExecuteCommand_at_return (exec : string → list string → Cmd)
    (picks : list nat) (command name : string) (args : list string)
    (st : OutputBuffer * sys) :
  window_ok st.1 →
  Fields command = name :: args →
  StdoutPipe_err (exec name args) = None →
  StderrPipe_err (exec name args) = None →
  Start_err (exec name args) = None →
  let cmd := exec name args in
  ∃ st' outs errs ingested,
    ExecuteCommand exec picks command st = Ok (st', Wait_err cmd)
    ∧ outs `prefix_of` ProcessStream_lines (Stdout cmd) "stdout"
    ∧ errs `prefix_of` ProcessStream_lines (Stderr cmd) "stderr"
    ∧ ingested ≡ₚ outs ++ errs ++ [exit_line (Wait_err cmd)]
    ∧ outs `sublist_of` ingested
    ∧ errs `sublist_of` ingested
    ∧ GetLines st'.1 = most_recent (maxBufferSize st.1) (recentLines st.1 ++ ingested)
    ∧ spawned st'.2 = spawned st.2 ++ [name :: args].
Proof.
  intros Hok Hfields Hout Herr Hstart cmd.
  unfold ExecuteCommand. rewrite Hfields, Hout, Herr, Hstart.
  fold cmd.
  set (sched := steps_until_return picks _ _ _).
  destruct (steps_until_return_spec picks
              (ProcessStream_steps (Stdout cmd) "stdout")
              (ProcessStream_steps (Stderr cmd) "stderr")
              (AddLine_steps (exit_line (Wait_err cmd))))
    as (out1 & err1 & Ho & He & Hp & Hso & Hse & _).
  fold sched in Hp, Hso, Hse.
  set (m0 := mkMachine st.1 (record_Start (name :: args) st.2) ∅).
  destruct (run_window sched m0 Hok) as (m & Hrun & _ & _ & Hrec).
  exists (ob m, env m), (appended out1), (appended err1), (appended sched).
  rewrite Hrun. simpl.
  split; [done|]. split.
  { rewrite <- (appended_AddLine_steps (ProcessStream_lines (Stdout cmd) "stdout")).
    by apply prefix_omap. }
  split.
  { rewrite <- (appended_AddLine_steps (ProcessStream_lines (Stderr cmd) "stderr")).
    by apply prefix_omap. }
  split.
  { unfold appended at 1. rewrite Hp. by rewrite !omap_app. }
  split; [by apply sublist_omap|]. split; [by apply sublist_omap|].
  split; [exact Hrec|]. by apply run_spawned in Hrun.
Qed.

Lemma ExecuteCommand_at_return_witness :
  let exec := λ (_ : string) (_ : list string),
    mkCmd None None None
          (mkReader ("a" +:+ LF +:+ "b") (ReadError "read |0: file already closed"))
          (mkReader ("e" +:+ LF) EOF)
          (Some "exit status 1") in
  let st := (mkOutputBuffer [] 10 ∅, sys0) in
  window_ok st.1
  ∧ Fields "make  all" = ["make"; "all"]
  ∧ StdoutPipe_err (exec "make" ["all"]) = None
  ∧ StderrPipe_err (exec "make" ["all"]) = None
  ∧ Start_err (exec "make" ["all"]) = None
  ∧ ∃ st', ExecuteCommand exec [1; 0; 0; 2; 2]%nat "make  all" st
           = Ok (st', Some "exit status 1").
Proof.
  intros exec st.
  assert (H1 : window_ok st.1) by (unfold window_ok; simpl; lia).
  assert (H2 : Fields "make  all" = ["make"; "all"]) by (vm_compute; reflexivity).
  assert (H3 : StdoutPipe_err (exec "make" ["all"]) = None) by reflexivity.
  assert (H4 : StderrPipe_err (exec "make" ["all"]) = None) by reflexivity.
  assert (H5 : Start_err (exec "make" ["all"]) = None) by reflexivity.
  split; [exact H1|]. split; [exact H2|]. split; [exact H3|].
  split; [exact H4|]. split; [exact H5|].
  destruct (ExecuteCommand_at_return exec [1; 0; 0; 2; 2]%nat "make  all"
              "make" ["all"] st H1 H2 H3 H4 H5) as (st' & outs & errs & ingested & Hrun & _).
  exists st'. exact Hrun.
Defined.

(** X15. The handler of a viewer whose transport works registers the
    viewer and replays the window to it; a message received changes
    nothing. The handler ends at the first [Receive] that returns an error,
    silently on [io.EOF] and with one log line on any other error, and the
    viewer is then no longer registered; as long as no [Receive] has failed
    the handler waits and the viewer stays registered. No other viewer's
    entry changes. *)
Theorem WSHandler_outcome (ws : conn) (events : list receive_result)
    (b : OutputBuffer) (n : sys) :
  ws ∉ broken n →
  let r := WSHandler ws events (b, n) in
  GetLines r.1.1 = GetLines b
  ∧ inbox_of r.1.2 ws = inbox_of n ws ++ (line_message <$> GetLines b)
  ∧ match first_end events with
    | None =>
        r.2 = Waiting ∧ clients r.1.1 !! ws = Some true ∧ errlog r.1.2 = errlog n
    | Some None =>
        r.2 = Exited ∧ clients r.1.1 !! ws = None ∧ errlog r.1.2 = errlog n
    | Some (Some e) =>
        r.2 = Exited ∧ clients r.1.1 !! ws = None
        ∧ errlog r.1.2 = errlog n ++ ["WebSocket error: " +:+ e]
    end
  ∧ ∀ c, c ≠ ws → clients r.1.1 !! c = clients b !! c.
Proof.
  intros Hws r. subst r. unfold WSHandler, WSHandler_resume.
  rewrite WSHandler_loop_first_end.
  pose proof (AddClient_inbox ws b n ws) as Hin.
  rewrite decide_True in Hin by done.
  assert (Hlog : errlog (AddClient ws (b, n)).2 = errlog n).
  { unfold AddClient. simpl. rewrite SendHistoryToClient_replay. apply replay_rest. }
  destruct (first_end events) as [[e|]|]; simpl.
  - split; [done|]. split; [exact Hin|]. split.
    + split; [done|]. split; [apply lookup_delete_eq|]. simpl in Hlog. by rewrite Hlog.
    + intros c Hc. rewrite lookup_delete_ne by done. by apply lookup_insert_ne.
  - split; [done|]. split; [exact Hin|]. split.
    + split; [done|]. split; [apply lookup_delete_eq|exact Hlog].
    + intros c Hc. rewrite lookup_delete_ne by done. by apply lookup_insert_ne.
  - split; [done|]. split; [exact Hin|]. split.
    + split; [done|]. split; [apply lookup_insert_eq|exact Hlog].
    + intros c Hc. by apply lookup_insert_ne.
Qed.

Lemma WSHandler_outcome_witness :
  let b := mkOutputBuffer ["x1"] 2 ∅ in
  (1%positive ∉ broken sys0)
  ∧ inbox_of (WSHandler 1%positive [Received "hi"; ReceiveError "unexpected EOF"]
                (b, sys0)).1.2 1%positive
    = inbox_of sys0 1%positive ++ (line_message <$> GetLines b).
Proof.
  intros b.
  assert (H : 1%positive ∉ broken sys0) by (simpl; apply not_elem_of_empty).
  split; [exact H|].
  apply (WSHandler_outcome 1%positive [Received "hi"; ReceiveError "unexpected EOF"]
           b sys0 H).
Defined.

(** X16. [main] with a command and a buffer size that is not positive
    panics before the command is started: a negative size when the buffer
    is made, the size 0 on the first [AddLine], which announces the
    command. *)
Theorem main_needs_positive_buffer (exec : string → list string → Cmd)
    (picks : list nat) (command : string) (bufferSize : Z) (n : sys) :
  command ≠ EmptyString →
  bufferSize ≤ 0 →
  main exec picks command bufferSize n
  = Panic (if decide (bufferSize < 0) then "makeslice: cap out of range"
           else "slice bounds out of range [1:0]").
Proof.
  intros Hcmd Hsize. unfold main, NewOutputBuffer.
  rewrite decide_False by done.
  destruct (decide (bufferSize < 0)) as [Hneg|Hzero]; [done|].
  rewrite decide_False by (unfold maxSliceCap; lia).
  simpl. unfold command_goroutine, AddLine, AddLine_append. simpl.
  rewrite decide_True by lia. done.
Qed.

Lemma main_needs_positive_buffer_witness :
  let exec := λ (_ : string) (_ : list string),
    mkCmd None None None (mkReader "out" EOF) (mkReader EmptyString EOF) None in
  "ls" ≠ EmptyString
  ∧ 0 ≤ 0
  ∧ main exec [] "ls" 0 sys0 = Panic "slice bounds out of range [1:0]".
Proof.
  intros exec.
  assert (H1 : "ls" ≠ EmptyString) by discriminate.
  assert (H2 : 0 ≤ 0) by lia.
  split; [exact H1|]. split; [exact H2|].
  apply (main_needs_positive_buffer exec [] "ls" 0 sys0 H1 H2).
Defined.



(** X18. The handler of a viewer that was not registered and whose
    transport has already failed: nothing is sent to anyone, and once
    [Receive] has returned an error the handler has ended and the buffer is
    exactly as it was before the handler ran, registry included; the
    environment is as it was too, but for one log line when the error is
    not [io.EOF]. *)
Theorem WSHandler_failed_transport (ws : conn) (events : list receive_result)
    (b : OutputBuffer) (n : sys) (e : option string) :
  ws ∈ broken n →
  clients b !! ws = None →
  first_end events = Some e →
  WSHandler ws events (b, n)
  = ((b, match e with
         | None => n
         | Some msg => log_Printf ("WebSocket error: " +:+ msg) n
         end), Exited).
Proof.
  intros Hws Hnew Hend. unfold WSHandler, WSHandler_resume.
  assert (Henv : (AddClient ws (b, n)).2 = n).
  { unfold AddClient. simpl. rewrite SendHistoryToClient_replay.
    by apply replay_to_broken. }
  rewrite WSHandler_loop_first_end, Hend, Henv.
  assert (Hbuf : ∀ n', RemoveClient ws ((AddClient ws (b, n)).1, n') = (b, n')).
  { intros n'. unfold RemoveClient, AddClient, AddClient_register, with_clients.
    cbn [fst snd recentLines maxBufferSize clients].
    rewrite delete_insert_id by done. by destruct b. }
  destruct e as [msg|]; by rewrite Hbuf.
Qed.

Lemma WSHandler_failed_transport_witness :
  let b := mkOutputBuffer ["x1"] 2 ∅ in
  let n := mkSys ∅ {[1%positive]} [] [] in
  1%positive ∈ broken n
  ∧ clients b !! 1%positive = None
  ∧ first_end [ReceiveEOF] = Some None
  ∧ WSHandler 1%positive [ReceiveEOF] (b, n) = ((b, n), Exited).
Proof.
  intros b n.
  assert (H1 : 1%positive ∈ broken n) by (simpl; apply elem_of_singleton; reflexivity).
  assert (H2 : clients b !! 1%positive = None) by reflexivity.
  assert (H3 : first_end [ReceiveEOF] = Some None) by reflexivity.
  split; [exact H1|]. split; [exact H2|]. split; [exact H3|].
  apply (WSHandler_failed_transport 1%positive [ReceiveEOF] b n None H1 H2 H3).
Defined.

(** X19. A registered viewer whose transport works receives the lines in
    the order of the broadcasts, whatever the order of the appends: when
    [AddLine] calls of several goroutines alternate, the window holds the
    lines in the order they were appended and the viewer gets them in the
    order they were broadcast. *)
Theorem live_order_is_broadcast_order (ws : conn) (sched : list action)
    (b : OutputBuffer) (n : sys) :
  window_ok b →
  ws ∉ broken n →
  is_Some (clients b !! ws) →
  Forall is_ingest_step sched →
  ∃ m, run sched (mkMachine b n ∅) = Ok m
       ∧ inbox_of (env m) ws
         = inbox_of n ws ++ (line_message <$> broadcast_lines sched)
       ∧ GetLines (ob m)
         = most_recent (maxBufferSize b) (recentLines b ++ appended sched).
Proof.
  intros Hok Hws Hreg Hall.
  destruct (run_view ws sched (mkMachine b n ∅) Hok Hws) as (m & Hrun & Hview).
  exists m. split; [exact Hrun|].
  rewrite view_ingest in Hview; [|apply Z.lt_le_incl, Hok|apply Hok|exact Hall].
  split.
  - apply (f_equal v_inbox) in Hview. simpl in Hview.
    by rewrite bool_decide_eq_true_2 in Hview.
  - by apply (f_equal v_lines) in Hview.
Qed.

Lemma live_order_is_broadcast_order_witness :
  let b := mkOutputBuffer [] 5 {[1%positive := true]} in
  let sched := [ActAppend "a"; ActAppend "b"; ActBroadcast "b"; ActBroadcast "a"] in
  window_ok b
  ∧ (1%positive ∉ broken sys0)
  ∧ is_Some (clients b !! 1%positive)
  ∧ Forall is_ingest_step sched
  ∧ interleave (AddLine_steps "a") (AddLine_steps "b") sched
  ∧ ∃ m, run sched (mkMachine b sys0 ∅) = Ok m
         ∧ inbox_of (env m) 1%positive
           = inbox_of sys0 1%positive ++ (line_message <$> ["b"; "a"])
         ∧ GetLines (ob m) = most_recent 5 ([] ++ ["a"; "b"]).
Proof.
  intros b sched.
  assert (H1 : window_ok b) by (unfold window_ok; simpl; lia).
  assert (H2 : 1%positive ∉ broken sys0) by (simpl; apply not_elem_of_empty).
  assert (H3 : is_Some (clients b !! 1%positive)) by (exists true; reflexivity).
  assert (H4 : Forall is_ingest_step sched) by (repeat constructor).
  split; [exact H1|]. split; [exact H2|]. split; [exact H3|]. split; [exact H4|].
  split.
  { apply interleave_l, interleave_r, interleave_r, interleave_l, interleave_nil. }
  apply (live_order_is_broadcast_order 1%positive sched b sys0 H1 H2 H3 H4).
Defined.
